(** * WhisperApp: the push-to-talk controller of [main.py]

    A shallow embedding of class [PushToTalkSTT] and of the behaviour its
    specification describes: key matching, the recording flag and buffer,
    the audio callback, validation and peak normalisation of the recorded
    samples, transcription dispatch and text injection.

    Numbers.  The recorded samples are numpy [float32] values.  Here a sample
    is an exact rational ([Qc], canonical fractions, so that equality is
    Leibniz equality); rounding is outside the model, and the python literals
    [0.2], [0.001] and [0.01] stand for the rationals they denote.  numpy's
    [nan] (the mean of an empty array) is kept as a value of its own.  The
    tests of validation on the RMS and the peak, whose outcome near the
    thresholds is a matter of rounding, are also given over an arbitrary
    [arithmetic], of which the rationals are one instance.

    Threads and time.  The object is shared by the listener thread (the key
    handlers), the audio thread (the stream's callback) and the threads the
    handlers start.  A method is a function on the object, run as one step;
    the audio callback is split where the stop signal can overtake it, the
    recording thread is stepped through its loop, and what the audio thread
    does during the release handler's 0.2 s wait is an argument of that
    handler; what it does between the hand-over and the moment the
    transcription thread reads the buffer is a further list of steps.
    Every call that leaves the object ([print], the overlay,
    [time.sleep], thread starts, the engine, the keyboard, the stream) is
    appended to a log; a pause is an event of the log, not measured time. *)

From Stdlib Require Import Reals Lra.
From Stdlib Require Import List ZArith QArith Qcanon Qcabs Qreals Bool Lia.
From Stdlib Require PrimFloat.
Import ListNotations.
Close Scope Qc_scope.
Close Scope Q_scope.
Close Scope R_scope.

(** ** Rational samples *)

Module Num.

Local Open Scope Qc_scope.

Definition Z2Qc (z : Z) : Qc := Q2Qc (inject_Z z).

(** [x < y] on python/numpy numbers, as a boolean. *)
Definition ltb (x y : Qc) : bool :=
  match x ?= y with Lt => true | _ => false end.

Definition max (x y : Qc) : Qc := if ltb x y then y else x.

(** A numpy floating scalar: a number, or [nan]. *)
Inductive npfloat : Type :=
| nan
| fin (q : Qc).

Definition sum (xs : list Qc) : Qc := fold_right Qcplus 0 xs.

(** [np.mean]: the mean of an empty array is [nan] (with a warning, no
    exception). *)
Definition np_mean (xs : list Qc) : npfloat :=
  match xs with
  | [] => nan
  | _ :: _ => fin (sum xs / Z2Qc (Z.of_nat (length xs)))
  end.

(** [arr.max()]: [None] stands for the [ValueError] numpy raises on an
    empty array. *)
Definition np_max (xs : list Qc) : option Qc :=
  match xs with
  | [] => None
  | x :: rest => Some (fold_left max rest x)
  end.

(** [np.sqrt(m) < t], decided without leaving the rationals: a square
    root is never negative, and squaring is monotone on non-negative
    numbers; every comparison with [nan] is false.  [sqrt_ltb_real] below
    relates it to the real square root. *)
Definition sqrt_ltb (m : npfloat) (t : Qc) : bool :=
  match m with
  | nan => false
  | fin q => ltb 0 t && ltb q (t * t)
  end.

End Num.

Export Num.

(** ** Arrays *)

Inductive dtype : Type := float32 | float64.

Definition dtype_eqb (a b : dtype) : bool :=
  match a, b with
  | float32, float32 | float64, float64 => true
  | _, _ => false
  end.

(** A one-dimensional numpy array. *)
Record ndarray : Type := mk_array { dt : dtype; data : list Qc }.

(** The block sounddevice hands to the callback: [frames] rows of
    [channels] samples each. *)
Record block : Type := mk_block { block_dt : dtype; rows : list (list Qc) }.

(** [indata.copy().flatten()] *)
Definition flatten (indata : block) : ndarray :=
  {| dt := block_dt indata; data := concat (rows indata) |}.

Definition promote (a b : dtype) : dtype :=
  match a, b with
  | float32, float32 => float32
  | _, _ => float64
  end.

Inductive Exn : Type :=
| ValueError
| AttributeError
| PortAudioError
| EngineError
| InjectionError
| FloatingPointError.   (* numpy's divide-by-zero condition *)

Inductive res (A : Type) : Type :=
| Ok (a : A)
| Raise (e : Exn).
Arguments Ok {A} a.
Arguments Raise {A} e.

(** [np.concatenate]: raises on an empty list of arrays. *)
Definition np_concatenate (chunks : list ndarray) : res ndarray :=
  match chunks with
  | [] => Raise ValueError
  | c :: rest =>
      Ok {| dt := fold_left promote (map dt rest) (dt c);
            data := concat (map data chunks) |}
  end.

Definition np_abs (a : ndarray) : ndarray :=
  {| dt := dt a; data := map Qcabs (data a) |}.

(** [a ** 2] *)
Definition np_square (a : ndarray) : ndarray :=
  {| dt := dt a; data := map (fun x => (x * x)%Qc) (data a) |}.

Definition astype (d : dtype) (a : ndarray) : ndarray :=
  {| dt := d; data := data a |}.

(** [a / d] for a scalar [d] of the array's own dtype.  With [d = 0] numpy
    yields [inf]/[nan] entries and signals divide-by-zero (a warning under
    the default error state), which no rational denotes: the model reports
    that case as [FloatingPointError]. *)
Definition np_divide (a : ndarray) (d : Qc) : res ndarray :=
  if Qc_eq_bool d 0%Qc then Raise FloatingPointError
  else Ok {| dt := dt a; data := map (fun x => (x / d)%Qc) (data a) |}.

(** ** Keys and text *)

(** A python [str], as its list of code points. *)
Definition pystr : Type := list N.

Definition str_eqb (a b : pystr) : bool :=
  if list_eq_dec N.eq_dec a b then true else false.

(** [str.isspace] on one code point (the table of CPython's
    [_PyUnicode_IsWhitespace]). *)
Definition isspace (c : N) : bool :=
  ((9 <=? c) && (c <=? 13) || (28 <=? c) && (c <=? 32)
   || (c =? 133) || (c =? 160) || (c =? 5760)
   || (8192 <=? c) && (c <=? 8202)
   || (c =? 8232) || (c =? 8233) || (c =? 8239) || (c =? 8287)
   || (c =? 12288))%N.

Fixpoint lstrip (s : pystr) : pystr :=
  match s with
  | [] => []
  | c :: rest => if isspace c then lstrip rest else s
  end.

(** [s.strip()] *)
Definition strip (s : pystr) : pystr := rev (lstrip (rev (lstrip s))).

(** Members of [pynput.keyboard.Key]. *)
Inductive Key : Type :=
| ctrl_r | alt_r | shift_r | f8 | esc | scroll_lock | insert | space | enter.

Scheme Equality for Key.

(** What the listener passes to [on_press]/[on_release]: a [Key] member, a
    [KeyCode] (whose [char] may be [None]), or [None] for an unknown key. *)
Inductive key_event : Type :=
| special (k : Key)
| KeyCode (vk : option N) (char : option pystr) (is_dead : bool)
| unknown_key.

(** How [trigger_key] is configured: a character ([str]) or a key object. *)
Inductive trigger : Type :=
| trigger_str (s : pystr)
| trigger_obj (k : key_event).

(** [key.char]: only a [KeyCode] has the attribute. *)
Definition getattr_char (key : key_event) : res (option pystr) :=
  match key with
  | KeyCode _ char _ => Ok char
  | special _ | unknown_key => Raise AttributeError
  end.

(** [hasattr(key, 'char')]: the attribute lookup, with [AttributeError]
    turned into [False]. *)
Definition hasattr_char (key : key_event) : bool :=
  match getattr_char key with
  | Ok _ => true
  | Raise _ => false
  end.

Definition option_eqb {A} (eqb : A -> A -> bool) (a b : option A) : bool :=
  match a, b with
  | Some x, Some y => eqb x y
  | None, None => true
  | _, _ => false
  end.

(** [key == self.trigger_key] between key objects: enum identity for
    [Key] members; pynput's [KeyCode.__eq__] compares [char] and [is_dead]
    when both sides have a [char], and [vk] otherwise. *)
Definition key_eq (a b : key_event) : bool :=
  match a, b with
  | special x, special y => Key_beq x y
  | KeyCode vk1 c1 d1, KeyCode vk2 c2 d2 =>
      match c1, c2 with
      | Some s1, Some s2 => str_eqb s1 s2 && Bool.eqb d1 d2
      | _, _ => option_eqb N.eqb vk1 vk2
      end
  | unknown_key, unknown_key => true
  | _, _ => false
  end.

(** The [key_matches] computation shared by [on_key_press] and
    [on_key_release] (lines 112-120 and 138-146), with the attribute access
    kept fallible. *)
Definition key_matches (trigger_key : trigger) (key : key_event) : res bool :=
  match trigger_key with
  | trigger_str s =>
      if hasattr_char key then
        match getattr_char key with
        | Ok char => Ok (option_eqb str_eqb char (Some s))
        | Raise e => Raise e
        end
      else Ok false
  | trigger_obj k => Ok (key_eq key k)
  end.

(** ** The application object and what it does to the outside *)

Inductive label : Type :=
| Ready            (* "● Ready" *)
| RECORDING        (* "● RECORDING" *)
| Processing       (* "● Processing..." *)
| Too_short        (* "● Too short" *)
| Silence          (* "● Silence" *)
| No_text          (* "● No text" *)
| Error.           (* "● Error" *)

Inductive color : Type := gray | red | yellow | orange.

(** The lines written with [print]. *)
Inductive msg : Type :=
| Recording_started
| Recording_stopped
| No_audio_captured
| Audio_status
| Error_during_recording (e : Exn)
| Traceback
| No_audio_buffer
| Audio_length (samples : nat)
| Audio_shape (samples : nat)
| Rms_and_max
| Audio_too_short
| Audio_silence
| Transcribing
| Transcribed (text : pystr)
| No_text_transcribed
| Error_during_transcription (e : Exn)
| Text_typed
| Error_typing_text (e : Exn).

Inductive thread : Type :=
| recording_thread        (* target=self._record_audio *)
| transcription_thread.   (* target=self._transcribe_and_type *)

(** Every call that leaves the object, in the order made. *)
Inductive event : Type :=
| update_status (l : label) (c : color)
| sleep (ms : Z)
| print (m : msg)
| thread_start (t : thread)
| transcribe (audio : ndarray)
| kbd_type (ch : N)
| stream_open (samplerate blocksize : Z)
| stream_start
| stream_stop
| stream_close.

(** The input device: for each stream operation, the exception it raises,
    if any. *)
Record sounddevice : Type := mk_sd {
  InputStream : option Exn;
  sd_start : option Exn;
  sd_stop : option Exn;
  sd_close : option Exn
}.

(** [self], with two additions: [log], the events so far, and
    [in_callback], the frame of an audio callback that has passed its
    [if self.is_recording] test and has not appended yet (the audio thread
    runs one callback at a time). *)
Record App : Type := mk_app {
  trigger_key : trigger;
  sample_rate : Z;
  is_recording : bool;
  audio_buffer : list ndarray;
  stream : bool;                                (* [self.stream] is not None *)
  model : ndarray -> res pystr;                 (* transcribe(...)["text"] *)
  keyboard_controller : nat -> N -> option Exn; (* the i-th [type(char)] *)
  sd : sounddevice;
  in_callback : option block;
  log : list event
}.

Definition set_is_recording (b : bool) (self : App) : App :=
  mk_app (trigger_key self) (sample_rate self) b (audio_buffer self)
         (stream self) (model self) (keyboard_controller self) (sd self)
         (in_callback self) (log self).

Definition set_audio_buffer (buf : list ndarray) (self : App) : App :=
  mk_app (trigger_key self) (sample_rate self) (is_recording self) buf
         (stream self) (model self) (keyboard_controller self) (sd self)
         (in_callback self) (log self).

Definition set_stream (s : bool) (self : App) : App :=
  mk_app (trigger_key self) (sample_rate self) (is_recording self)
         (audio_buffer self) s (model self) (keyboard_controller self)
         (sd self) (in_callback self) (log self).

Definition set_in_callback (c : option block) (self : App) : App :=
  mk_app (trigger_key self) (sample_rate self) (is_recording self)
         (audio_buffer self) (stream self) (model self)
         (keyboard_controller self) (sd self) c (log self).

Definition set_log (l : list event) (self : App) : App :=
  mk_app (trigger_key self) (sample_rate self) (is_recording self)
         (audio_buffer self) (stream self) (model self)
         (keyboard_controller self) (sd self) (in_callback self) l.

(** ** A state and exception monad for the methods *)

Definition M (A : Type) : Type := App -> res A * App.

Definition ret {A} (a : A) : M A := fun self => (Ok a, self).

Definition bind {A B} (c : M A) (k : A -> M B) : M B :=
  fun self =>
    match c self with
    | (Ok a, self') => k a self'
    | (Raise e, self') => (Raise e, self')
    end.

Declare Scope monad_scope.
Delimit Scope monad_scope with monad.
Notation "x <- c ;; k" := (bind c (fun x => k))
  (at level 61, c at next level, right associativity) : monad_scope.
Notation "c ;; k" := (bind c (fun _ => k))
  (at level 61, right associativity) : monad_scope.
Local Open Scope monad_scope.

Definition get : M App := fun self => (Ok self, self).

Definition modify (f : App -> App) : M unit := fun self => (Ok tt, f self).

Definition lift {A} (r : res A) : M A := fun self => (r, self).

(** A call that returns nothing and may raise. *)
Definition may_raise (o : option Exn) : M unit :=
  fun self => match o with
              | None => (Ok tt, self)
              | Some e => (Raise e, self)
              end.

Definition emit (e : event) : M unit :=
  modify (fun self => set_log (log self ++ [e]) self).

(** [try: body except Exception as e: handler e] *)
Definition try_except {A} (body : M A) (handler : Exn -> M A) : M A :=
  fun self =>
    match body self with
    | (Ok a, self') => (Ok a, self')
    | (Raise e, self') => handler e self'
    end.

(** The state a method leaves behind. *)
Definition exec {A} (c : M A) (self : App) : App := snd (c self).

(** ** Methods of [PushToTalkSTT] *)

(** [_update_status]: the label change is queued on the overlay; whatever
    the overlay raises is swallowed, so the call itself never fails. *)
Definition _update_status (status : label) (c : color) : M unit :=
  emit (update_status status c).

(** [time.sleep], in milliseconds. *)
Definition time_sleep (ms : Z) : M unit := emit (sleep ms).

Definition start_thread (t : thread) : M unit := emit (thread_start t).

(** *** The audio thread *)

(** [audio_callback] in two steps, since the stop signal may fall between
    its test of the flag and its append. *)
Inductive audio_ev : Type :=
| cb_enter (indata : block) (status : bool)  (* up to [if self.is_recording] *)
| cb_append.                                 (* the [append] of that call *)

Definition audio_step (ev : audio_ev) : M unit :=
  match ev with
  | cb_enter indata status =>
      (if status then emit (print Audio_status) else ret tt);;
      self <- get;;
      if is_recording self
      then modify (set_in_callback (Some indata))
      else modify (set_in_callback None)
  | cb_append =>
      self <- get;;
      match in_callback self with
      | Some indata =>
          modify (fun s => set_in_callback None
                    (set_audio_buffer (audio_buffer s ++ [flatten indata]) s))
      | None => ret tt
      end
  end.

(** One whole invocation of [audio_callback] (lines 169-174). *)
Definition audio_callback (indata : block) (status : bool) : M unit :=
  audio_step (cb_enter indata status);; audio_step cb_append.

Fixpoint audio_thread (evs : list audio_ev) : M unit :=
  match evs with
  | [] => ret tt
  | ev :: rest => audio_step ev;; audio_thread rest
  end.

(** The events of callbacks that run to completion one after the other. *)
Definition whole_callbacks (cbs : list (block * bool)) : list audio_ev :=
  flat_map (fun c => [cb_enter (fst c) (snd c); cb_append]) cbs.

(** *** Key handlers *)

(** [on_key_press] (lines 108-133).  The body under [recording_lock] is one
    step of the listener thread: no callback runs between its statements
    (the stream of the session is opened by the thread started last). *)
Definition on_key_press (key : key_event) : M unit :=
  self <- get;;
  matches <- lift (key_matches (trigger_key self) key);;
  if matches then
    if negb (is_recording self) then
      modify (set_is_recording true);;
      modify (set_audio_buffer []);;
      emit (print Recording_started);;
      _update_status RECORDING red;;
      start_thread recording_thread
    else ret tt
  else ret tt.

(** [_process_audio] *)
Definition _process_audio : M unit := start_thread transcription_thread.

(** Lines 158-163: the buffer is handed to a transcription thread when it
    holds something. *)
Definition hand_over : M unit :=
  self <- get;;
  match audio_buffer self with
  | _ :: _ => _process_audio
  | [] =>
      emit (print No_audio_captured);;
      _update_status Ready gray
  end.

(** [on_key_release] (lines 135-163).  [grace] is what the audio thread
    does while the handler sleeps its 0.2 seconds. *)
Definition on_key_release (grace : list audio_ev) (key : key_event) : M unit :=
  self <- get;;
  matches <- lift (key_matches (trigger_key self) key);;
  if matches then
    if is_recording self then
      modify (set_is_recording false);;
      emit (print Recording_stopped);;
      _update_status Processing yellow;;
      time_sleep 200;;
      audio_thread grace;;
      hand_over
    else ret tt
  else ret tt.

(** *** The recording thread *)

Inductive rec_pc : Type :=
| at_open       (* about to create and start the stream *)
| at_loop       (* at the test of [while self.is_recording] *)
| finished.

(** The [except] clause of [_record_audio] (lines 200-206). *)
Definition recording_failed (e : Exn) : M rec_pc :=
  emit (print (Error_during_recording e));;
  emit (print Traceback);;
  modify (set_is_recording false);;
  _update_status Error red;;
  ret finished.

(** [_record_audio] (lines 165-206), one step at a time: the loop waits on
    a flag that other threads write.  The handler of the enclosing [try]
    covers every step. *)
Definition _record_audio_step (pc : rec_pc) : M rec_pc :=
  try_except
    (match pc with
     | at_open =>
         self <- get;;
         emit (stream_open (sample_rate self) (sample_rate self / 10));;
         may_raise (InputStream (sd self));;
         modify (set_stream true);;
         emit stream_start;;
         may_raise (sd_start (sd self));;
         time_sleep 100;;
         ret at_loop
     | at_loop =>
         self <- get;;
         if is_recording self then
           time_sleep 50;; ret at_loop
         else
           (if stream self then
              emit stream_stop;;
              may_raise (sd_stop (sd self));;
              emit stream_close;;
              may_raise (sd_close (sd self));;
              modify (set_stream false)
            else ret tt);;
           ret finished
     | finished => ret finished
     end)
    recording_failed.

(** *** Validation (lines 229-260) *)

Definition silence_threshold : Qc := Q2Qc (1 # 1000).
Definition min_duration : Qc := Q2Qc (2 # 10).
Definition max_amplitude_threshold : Qc := Q2Qc (1 # 100).

Inductive verdict : Type :=
| too_short
| silent
| accept (audio_data : ndarray).

Definition of_max (m : option Qc) : res Qc :=
  match m with
  | Some x => Ok x
  | None => Raise ValueError
  end.

(** Lines 253-256: peak normalisation. *)
Definition normalize (audio_data : ndarray) : res ndarray :=
  match of_max (np_max (data (np_abs audio_data))) with
  | Raise e => Raise e
  | Ok max_val =>
      if ltb 0%Qc max_val then np_divide audio_data max_val else Ok audio_data
  end.

(** Lines 258-260: the cast to the engine's sample type. *)
Definition to_float32 (audio_data : ndarray) : ndarray :=
  if dtype_eqb (dt audio_data) float32 then audio_data
  else astype float32 audio_data.

(** The computations of lines 231-260 on the concatenated samples, without
    the printing between them: the mean square (whose root is the RMS), the
    peak, the two rejections in their order, the normalisation and the
    cast. *)
Definition validate (sample_rate : Z) (audio_data : ndarray) : res verdict :=
  let mean_square := np_mean (data (np_square audio_data)) in
  match of_max (np_max (data (np_abs audio_data))) with
  | Raise e => Raise e
  | Ok max_amplitude =>
      if ltb (Z2Qc (Z.of_nat (length (data audio_data))))
             (Z2Qc sample_rate * min_duration)%Qc
      then Ok too_short
      else if sqrt_ltb mean_square silence_threshold
              && ltb max_amplitude max_amplitude_threshold
      then Ok silent
      else
        match normalize audio_data with
        | Raise e => Raise e
        | Ok normalized => Ok (accept (to_float32 normalized))
        end
  end.

(** *** Injection and transcription *)

Fixpoint type_chars (i : nat) (text : pystr) : M unit :=
  match text with
  | [] => ret tt
  | ch :: rest =>
      emit (kbd_type ch);;
      self <- get;;
      may_raise (keyboard_controller self i ch);;
      time_sleep 10;;
      type_chars (S i) rest
  end.

(** [_type_text] (lines 286-299) *)
Definition _type_text (text : pystr) : M unit :=
  try_except
    (time_sleep 100;;
     type_chars 0 text;;
     emit (print Text_typed))
    (fun e => emit (print (Error_typing_text e))).

(** Lines 225-276: what [_transcribe_and_type] does with the concatenated
    samples. *)
Definition transcribe_samples (audio_data : ndarray) : M unit :=
  self <- get;;
  emit (print (Audio_length (length (data audio_data))));;
  emit (print (Audio_shape (length (data audio_data))));;
  v <- lift (validate (sample_rate self) audio_data);;
  emit (print Rms_and_max);;
  match v with
  | too_short =>
      emit (print Audio_too_short);;
      _update_status Too_short orange;;
      time_sleep 1000;;
      _update_status Ready gray
  | silent =>
      emit (print Audio_silence);;
      _update_status Silence orange;;
      time_sleep 1000;;
      _update_status Ready gray
  | accept audio =>
      emit (print Transcribing);;
      emit (transcribe audio);;
      result <- lift (model self audio);;
      let text := strip result in
      match text with
      | _ :: _ =>
          emit (print (Transcribed text));;
          _type_text text;;
          _update_status Ready gray
      | [] =>
          emit (print No_text_transcribed);;
          _update_status No_text orange;;
          time_sleep 1000;;
          _update_status Ready gray
      end
  end.

(** The [except] clause of [_transcribe_and_type] (lines 278-284). *)
Definition transcription_failed (e : Exn) : M unit :=
  emit (print (Error_during_transcription e));;
  emit (print Traceback);;
  _update_status Error red;;
  time_sleep 1000;;
  _update_status Ready gray.

(** [_transcribe_and_type] (lines 214-284) *)
Definition _transcribe_and_type : M unit :=
  try_except
    (self <- get;;
     match audio_buffer self with
     | [] =>
         emit (print No_audio_buffer);;
         _update_status Ready gray
     | _ :: _ =>
         audio_data <- lift (np_concatenate (audio_buffer self));;
         transcribe_samples audio_data
     end)
    transcription_failed.

(** ** Observations on the log *)

(** The label the overlay shows: the last one set. *)
Fixpoint shown (l : list event) (current : label) : label :=
  match l with
  | [] => current
  | update_status s _ :: rest => shown rest s
  | _ :: rest => shown rest current
  end.

(** The controller state of the specification, read off the overlay: the
    transient diagnostics belong to PROCESSING. *)
Inductive RecordingState : Type := READY | RECORDING_ | PROCESSING | ERROR.

Definition state_of (s : label) : RecordingState :=
  match s with
  | Ready => READY
  | RECORDING => RECORDING_
  | Processing | Too_short | Silence | No_text => PROCESSING
  | Error => ERROR
  end.

(** The overlay starts at "● Ready" ([_create_overlay]). *)
Definition state (self : App) : RecordingState :=
  state_of (shown (log self) Ready).

Definition is_transcribe (e : event) : bool :=
  match e with transcribe _ => true | _ => false end.

Definition is_kbd_type (e : event) : bool :=
  match e with kbd_type _ => true | _ => false end.

(** The arrays the engine was called with, and the characters typed. *)
Definition engine_calls (l : list event) : list event := filter is_transcribe l.
Definition injections (l : list event) : list event := filter is_kbd_type l.

(** ** The quantities of the specification (section 4.3) *)

(** duration = sampleCount / sampleRate *)
Definition duration (sample_rate : Z) (a : ndarray) : Qc :=
  (Z2Qc (Z.of_nat (length (data a))) / Z2Qc sample_rate)%Qc.

(** peak = max(|sample|), 0 for no sample at all *)
Definition peak (a : ndarray) : Qc := fold_left max (map Qcabs (data a)) 0%Qc.

(** mean(sample²) *)
Definition mean_square (a : ndarray) : Qc :=
  (sum (map (fun x => x * x) (data a)) / Z2Qc (Z.of_nat (length (data a))))%Qc.

(** RMS = sqrt(mean(sample²)), a real number *)
Definition rms (a : ndarray) : R := sqrt (Q2R (mean_square a)).

Definition all_zero (a : ndarray) : Prop := Forall (fun x => x = 0%Qc) (data a).

(** The events a method adds to the log of [self]. *)
Definition added (self after : App) : list event :=
  skipn (length (log self)) (log after).

Definition statuses (l : list event) : list label :=
  flat_map (fun e => match e with update_status s _ => s :: nil | _ => nil end) l.

(** The transient labels that report why a session produced no text. *)
Definition diagnostic (s : label) : bool :=
  match s with
  | Too_short | Silence | No_text | Error => true
  | Ready | RECORDING | Processing => false
  end.

(** The samples after the rescaling of the specification: every sample
    times 1/peak when the peak is positive. *)
Definition rescaled (a : ndarray) : list Qc :=
  if ltb 0%Qc (peak a)
  then map (fun x => (x * (1 / peak a))%Qc) (data a)
  else data a.

(** What [transcribe_samples] prints before the checks. *)
Definition preamble (audio_data : ndarray) : list event :=
  [print (Audio_length (length (data audio_data)));
   print (Audio_shape (length (data audio_data)))].

(** What precedes the engine's answer on accepted samples. *)
Definition dispatch (audio_data audio : ndarray) : list event :=
  preamble audio_data
  ++ [print Rms_and_max; print Transcribing; transcribe audio].

(** The threads started, among some events. *)
Definition threads_started (l : list event) : list thread :=
  flat_map (fun e => match e with thread_start t => t :: nil | _ => nil end) l.

(** The events of a callback caught by the stop signal between its test of
    the flag and its append: the first before the signal, the second in the
    grace window. *)
Definition enter_of (last : option (block * bool)) : list audio_ev :=
  match last with
  | Some (indata, status) => [cb_enter indata status]
  | None => []
  end.

Definition append_of (last : option (block * bool)) : list audio_ev :=
  match last with
  | Some _ => [cb_append]
  | None => []
  end.

Definition block_of (last : option (block * bool)) : list block :=
  match last with
  | Some (indata, _) => [indata]
  | None => []
  end.

(** ** Sample objects *)

Definition ascii_r : pystr := [114%N].

(** " hello " *)
Definition hello : pystr := [32; 104; 101; 108; 108; 111; 32]%N.

Definition working_device : sounddevice :=
  {| InputStream := None; sd_start := None; sd_stop := None; sd_close := None |}.

Definition missing_device : sounddevice :=
  {| InputStream := Some PortAudioError; sd_start := None;
     sd_stop := None; sd_close := None |}.

(** The object [main] builds: trigger Right Ctrl, 16 kHz, nothing recorded,
    overlay at "Ready". *)
Definition app (engine : ndarray -> res pystr)
    (kbd : nat -> N -> option Exn) (device : sounddevice) : App :=
  {| trigger_key := trigger_obj (special ctrl_r);
     sample_rate := 16000;
     is_recording := false;
     audio_buffer := [];
     stream := false;
     model := engine;
     keyboard_controller := kbd;
     sd := device;
     in_callback := None;
     log := [] |}.

Definition app0 : App :=
  app (fun _ => Ok hello) (fun _ _ => None) working_device.

(** Half a second at amplitude 1/2. *)
Definition loud_half_second : ndarray :=
  {| dt := float32; data := repeat (Q2Qc (1 # 2)) (Z.to_nat 8000) |}.

(** A tenth of a second of zeros: one block of the stream. *)
Definition silent_block : ndarray :=
  {| dt := float32; data := repeat 0%Qc (Z.to_nat 1600) |}.

(** ** Sessions and what they log *)

(** What a trigger press that starts a session logs. *)
Definition start_events : list event :=
  [print Recording_started; update_status RECORDING red;
   thread_start recording_thread].

(** The object after such a press. *)
Definition started (self : App) : App :=
  set_log (log self ++ start_events)
          (set_audio_buffer [] (set_is_recording true self)).

(** What callbacks print: one line for each that is passed a status. *)
Definition status_prints (cbs : list (block * bool)) : list event :=
  flat_map (fun c : block * bool =>
              if snd c then [print Audio_status] else []) cbs.

(** What the release handler logs before its grace wait ends. *)
Definition stop_events : list event :=
  [print Recording_stopped; update_status Processing yellow; sleep 200].

(** What [hand_over] logs, by the buffer it finds. *)
Definition hand_over_events (buf : list ndarray) : list event :=
  match buf with
  | [] => [print No_audio_captured; update_status Ready gray]
  | _ :: _ => [thread_start transcription_thread]
  end.

(** The blocks a session keeps: those of the callbacks that ran while the
    key was down, then the block of the callback the stop signal caught in
    flight. *)
Definition kept (cbs : list (block * bool)) (last : option (block * bool))
  : list block :=
  map fst cbs ++ block_of last.

(** A session up to the stop signal: the trigger press, the whole
    callbacks [cbs], and the first half of the callback [last]. *)
Definition recording_state (key : key_event) (cbs : list (block * bool))
    (last : option (block * bool)) (self : App) : App :=
  exec (audio_thread (whole_callbacks cbs ++ enter_of last))
       (exec (on_key_press key) self).

(** The session up to the hand-over: the release, during whose grace wait
    [last] appends and the callbacks [late] run.  The transcription thread
    reads the buffer as the hand-over leaves it. *)
Definition stopped_state (key : key_event) (cbs : list (block * bool))
    (last : option (block * bool)) (late : list (block * bool))
    (self : App) : App :=
  exec (on_key_release (append_of last ++ whole_callbacks late) key)
       (recording_state key cbs last self).

(** What the [except] clause of [_transcribe_and_type] logs. *)
Definition failure_events (e : Exn) : list event :=
  [print (Error_during_transcription e); print Traceback;
   update_status Error red; sleep 1000; update_status Ready gray].

(** The events of a rejection by [validate]. *)
Definition rejection_events (a : ndarray) (m : msg) (l : label) : list event :=
  preamble a
  ++ [print Rms_and_max; print m; update_status l orange; sleep 1000;
      update_status Ready gray].

(** What the specification asks of a session that is rejected before the
    engine: no engine call, a diagnostic label on the overlay, and Ready at
    the end. *)
Definition rejected_with_diagnostic (before after : App) : Prop :=
  engine_calls (added before after) = []
  /\ existsb diagnostic (statuses (added before after)) = true
  /\ state after = READY.

(** ** More sample objects *)

Definition block_a : block :=
  {| block_dt := float32; rows := [[Q2Qc (1 # 2)]; [Q2Qc (1 # 4)]] |}.




(** The same object as [app0], with no input device. *)
Definition deaf_app : App :=
  app (fun _ => Ok hello) (fun _ _ => None) missing_device.

(** An object whose buffer holds one recorded array. *)
Definition with_recording (a : ndarray) (self : App) : App :=
  set_audio_buffer [a] self.

(** Two spaces. *)
Definition blank : pystr := [32; 32]%N.

(** The engine hears nothing but blanks. *)
Definition app_blank : App :=
  with_recording loud_half_second
    (app (fun _ => Ok blank) (fun _ _ => None) working_device).

(** The keyboard fails at the third keystroke. *)
Definition app_stuck : App :=
  with_recording loud_half_second
    (app (fun _ => Ok hello)
         (fun i _ => if Nat.eqb i 2 then Some InjectionError else None)
         working_device).

(** A verdict, shown by its case and its first two samples. *)
Definition verdict_of (r : res verdict) : option (nat * list Q) :=
  match r with
  | Ok too_short => Some (0%nat, [])
  | Ok silent => Some (1%nat, [])
  | Ok (accept a) => Some (2%nat, map this (firstn 2 (data a)))
  | Raise _ => None
  end.

(** ** Runs of several steps *)

(** Whether a key event is the trigger of [self]. *)
Definition is_trigger (self : App) (key : key_event) : bool :=
  match key_matches (trigger_key self) key with
  | Ok b => b
  | Raise _ => false
  end.


(** The stream operation that raises in the step at [pc], if one does:
    the first of those the step reaches. *)
Definition step_failure (pc : rec_pc) (self : App) : option Exn :=
  match pc with
  | at_open =>
      match InputStream (sd self) with
      | Some e => Some e
      | None => sd_start (sd self)
      end
  | at_loop =>
      if is_recording self then None
      else if stream self then
        match sd_stop (sd self) with
        | Some e => Some e
        | None => sd_close (sd self)
        end
      else None
  | finished => None
  end.

Definition is_stream_event (e : event) : bool :=
  match e with
  | stream_open _ _ | stream_start | stream_stop | stream_close => true
  | _ => false
  end.

(** The calls made on the input stream, among some events. *)
Definition stream_calls (l : list event) : list event := filter is_stream_event l.

(** The time slept, among some events, in milliseconds. *)
Definition pauses (l : list event) : Z :=
  fold_right (fun e acc => match e with sleep ms => (ms + acc)%Z | _ => acc end)
             0%Z l.

(** The characters [type_chars] sends from position [i] on: the text up to
    and including the first keystroke that raises. *)
Fixpoint sent (kbd : nat -> N -> option Exn) (i : nat) (text : pystr) : pystr :=
  match text with
  | [] => []
  | ch :: rest =>
      ch :: match kbd i ch with
            | Some _ => []
            | None => sent kbd (S i) rest
            end
  end.

(** ** More of the audio thread and more sample objects *)

(** Whether a step of the audio thread is an append. *)
Definition is_cb_append (ev : audio_ev) : bool :=
  match ev with
  | cb_append => true
  | cb_enter _ _ => false
  end.


(** One block of the stream at amplitude 1/2, and a recording of three. *)
Definition loud_block : block :=
  {| block_dt := float32;
     rows := repeat [Q2Qc (1 # 2)] (Z.to_nat 1600) |}.

Definition loud_blocks : list (block * bool) :=
  [(loud_block, false); (loud_block, false); (loud_block, false)].

(** The engine fails. *)
Definition app_mute : App :=
  with_recording loud_half_second
    (app (fun _ => Raise EngineError) (fun _ _ => None) working_device).

(** ** The listener callbacks of [start] *)

(** The overlay window, as the exit branch sees it: what [root.quit()] and
    [root.destroy()] raise, if anything. *)
Record overlay : Type := mk_overlay {
  root_quit : option Exn;
  root_destroy : option Exn
}.

(** What the exit branch does on the console and the overlay. *)
Inductive exit_call : Type :=
| said_exiting      (* print("\nExiting...") *)
| called_quit       (* self.root.quit() *)
| called_destroy.   (* self.root.destroy() *)

(** [try: body except: pass] *)
Definition try_pass (body : M unit) : M unit :=
  try_except body (fun _ => ret tt).

(** [on_press] of [start] (lines 327-345).  The result tells whether the
    listener goes on ([true], python's [None]) or stops ([false]); the
    console line and the overlay calls of the exit branch, which the log
    has no event for, are returned with it, in their order: the line comes
    before the stream is stopped, the overlay calls after. *)
Definition on_press (root : overlay) (key : key_event)
  : M (bool * list exit_call) :=
  on_key_press key;;
  if key_eq key (special esc) then
    modify (set_is_recording false);;
    self <- get;;
    (if stream self then
       try_pass (emit stream_stop;;
                 may_raise (sd_stop (sd self));;
                 emit stream_close;;
                 may_raise (sd_close (sd self)))
     else ret tt);;
    ret (false,
         said_exiting :: called_quit
         :: match root_quit root with
            | None => [called_destroy]
            | Some _ => []
            end)
  else ret (true, []).

(** [on_release] of [start] (lines 347-348). *)
Definition on_release (grace : list audio_ev) (key : key_event) : M unit :=
  on_key_release grace key.

(** ** Validation in numpy's own arithmetic *)

(** What lines 231-260 leave to numpy, and which the rational samples do
    not fix: the samples are float32 values (float64 for an array of that
    type), [np.mean], [np.sqrt] and the division round, and a comparison
    with a python float converts one side to the type of the other first,
    by the promotion rules of the numpy at hand.  An [arithmetic] gives
    these operations; nothing is assumed of them.  The samples stay the
    rationals the floats denote: [np.abs], [np.max] and the comparison of
    the peak with [0] are exact in any floating-point arithmetic. *)
Record arithmetic : Type := mk_arithmetic {
  scalar : Type;                     (* numpy scalars, nan and infinities included *)
  sample : dtype -> Qc -> scalar;    (* an element of an array of that type *)
  square : scalar -> scalar;         (* x ** 2 *)
  mean : list scalar -> scalar;      (* np.mean *)
  root : scalar -> scalar;           (* np.sqrt *)
  lt_float : scalar -> Qc -> bool;   (* x < t, t a python float *)
  divide : dtype -> Qc -> Qc -> Qc;  (* x / d in the array's type, d not 0 *)
  cast32 : Qc -> Qc                  (* one sample through astype(np.float32) *)
}.

(** [np.sqrt(np.mean(a ** 2))] (line 231) *)
Definition rms_in (ar : arithmetic) (a : ndarray) : scalar ar :=
  root ar (mean ar (map (fun x => square ar (sample ar (dt a) x)) (data a))).

(** The scalars of the arithmetic without rounding: a number or [nan], or
    the square root of one, kept as such. *)
Inductive exact_scalar : Type :=
| value (x : npfloat)
| root_of (x : npfloat).

(** The numbers of a list of scalars, if they all are finite numbers. *)
Fixpoint values (l : list exact_scalar) : option (list Qc) :=
  match l with
  | [] => Some []
  | value (fin q) :: rest =>
      match values rest with
      | Some qs => Some (q :: qs)
      | None => None
      end
  | _ :: _ => None
  end.

(** The arithmetic without rounding, the one [validate] computes in. *)
Definition exact_arithmetic : arithmetic :=
  {| scalar := exact_scalar;
     sample := fun _ q => value (fin q);
     square := fun x =>
       match x with
       | value (fin q) => value (fin (q * q)%Qc)
       | value nan => value nan
       | root_of m => value m
       end;
     mean := fun l =>
       match values l with
       | Some qs => value (np_mean qs)
       | None => value nan
       end;
     root := fun x =>
       match x with
       | value m => root_of m
       | root_of _ => value nan
       end;
     lt_float := fun x t =>
       match x with
       | value (fin q) => ltb q t
       | value nan => false
       | root_of m => sqrt_ltb m t
       end;
     divide := fun _ x d => (x / d)%Qc;
     cast32 := fun x => x |}.

(** [a / d], as in [np_divide]. *)
Definition np_divide_in (ar : arithmetic) (a : ndarray) (d : Qc) : res ndarray :=
  if Qc_eq_bool d 0%Qc then Raise FloatingPointError
  else Ok {| dt := dt a; data := map (fun x => divide ar (dt a) x d) (data a) |}.

(** Lines 253-256 *)
Definition normalize_in (ar : arithmetic) (audio_data : ndarray) : res ndarray :=
  match of_max (np_max (data (np_abs audio_data))) with
  | Raise e => Raise e
  | Ok max_val =>
      if ltb 0%Qc max_val then np_divide_in ar audio_data max_val
      else Ok audio_data
  end.

(** Lines 258-260 *)
Definition to_float32_in (ar : arithmetic) (audio_data : ndarray) : ndarray :=
  if dtype_eqb (dt audio_data) float32 then audio_data
  else {| dt := float32; data := map (cast32 ar) (data audio_data) |}.

(** Lines 231-260 in the arithmetic [ar]: the length test, which is exact,
    then the test on the RMS and the peak, then the normalisation and the
    cast. *)
Definition validate_in (ar : arithmetic) (sample_rate : Z)
    (audio_data : ndarray) : res verdict :=
  match of_max (np_max (data (np_abs audio_data))) with
  | Raise e => Raise e
  | Ok max_amplitude =>
      if ltb (Z2Qc (Z.of_nat (length (data audio_data))))
             (Z2Qc sample_rate * min_duration)%Qc
      then Ok too_short
      else if lt_float ar (rms_in ar audio_data) silence_threshold
              && lt_float ar (sample ar (dt audio_data) max_amplitude)
                          max_amplitude_threshold
      then Ok silent
      else
        match normalize_in ar audio_data with
        | Raise e => Raise e
        | Ok normalized => Ok (accept (to_float32_in ar normalized))
        end
  end.

(** Lines 225-276 in the arithmetic [ar]. *)
Definition transcribe_samples_in (ar : arithmetic) (audio_data : ndarray)
  : M unit :=
  self <- get;;
  emit (print (Audio_length (length (data audio_data))));;
  emit (print (Audio_shape (length (data audio_data))));;
  v <- lift (validate_in ar (sample_rate self) audio_data);;
  emit (print Rms_and_max);;
  match v with
  | too_short =>
      emit (print Audio_too_short);;
      _update_status Too_short orange;;
      time_sleep 1000;;
      _update_status Ready gray
  | silent =>
      emit (print Audio_silence);;
      _update_status Silence orange;;
      time_sleep 1000;;
      _update_status Ready gray
  | accept audio =>
      emit (print Transcribing);;
      emit (transcribe audio);;
      result <- lift (model self audio);;
      let text := strip result in
      match text with
      | _ :: _ =>
          emit (print (Transcribed text));;
          _type_text text;;
          _update_status Ready gray
      | [] =>
          emit (print No_text_transcribed);;
          _update_status No_text orange;;
          time_sleep 1000;;
          _update_status Ready gray
      end
  end.


(** ** A session under any schedule of the audio thread *)





(** A session when the stop signal comes: the trigger press, then the
    steps [before] of the audio thread, whatever they are. *)
Definition at_stop_signal (key : key_event) (before : list audio_ev)
    (self : App) : App :=
  exec (audio_thread before) (exec (on_key_press key) self).

(** The session when the release handler returns, the audio thread having
    taken the steps [grace] during the 0.2 s wait. *)
Definition at_hand_over (key : key_event) (before grace : list audio_ev)
    (self : App) : App :=
  exec (on_key_release grace key) (at_stop_signal key before self).


(** ** Key-down events among the steps of the other threads *)

(** One step of one of the threads while the key is held down: the
    listener delivers a key-down event, the audio thread takes a step, or
    a recording thread takes the step at [pc]. *)
Inductive action : Type :=
| key_down (key : key_event)
| audio (ev : audio_ev)
| record_step (pc : rec_pc).

Definition act (a : action) : M unit :=
  match a with
  | key_down key => on_key_press key
  | audio ev => audio_step ev
  | record_step pc => _record_audio_step pc;; ret tt
  end.

Fixpoint interleaved (acts : list action) : M unit :=
  match acts with
  | [] => ret tt
  | a :: rest => act a;; interleaved rest
  end.

(** Whether a step is a key-down event of the trigger of [self]. *)
Definition is_trigger_down (self : App) (a : action) : bool :=
  match a with
  | key_down key => is_trigger self key
  | audio _ | record_step _ => false
  end.

(** No operation on the input stream raises. *)
Definition device_works (self : App) : Prop :=
  InputStream (sd self) = None /\ sd_start (sd self) = None
  /\ sd_stop (sd self) = None /\ sd_close (sd self) = None.

(** * Properties *)

(** ** Order and arithmetic on samples *)

Section Order.

Local Open Scope Qc_scope.

Lemma ltb_lt (x y : Qc) : ltb x y = true <-> x < y.
Proof.
  unfold ltb. rewrite Qclt_alt.
  destruct (x ?= y); split; intro H; try reflexivity; discriminate H.
Qed.

Lemma ltb_ge (x y : Qc) : ltb x y = false <-> y <= x.
Proof.
  split; intro H.
  - apply Qcnot_lt_le. intro L. apply ltb_lt in L. congruence.
  - destruct (ltb x y) eqn:E; [|reflexivity].
    apply ltb_lt in E. exfalso. exact (Qcle_not_lt _ _ H E).
Qed.

Lemma max_r (x y : Qc) : x <= y -> max x y = y.
Proof.
  intro H. unfold max. destruct (ltb x y) eqn:E; [reflexivity|].
  apply ltb_ge in E. now apply Qcle_antisym.
Qed.

Lemma max_l (x y : Qc) : y <= x -> max x y = x.
Proof. intro H. unfold max. apply ltb_ge in H. now rewrite H. Qed.

Lemma max_ub_l (x y : Qc) : x <= max x y.
Proof.
  unfold max. destruct (ltb x y) eqn:E.
  - apply ltb_lt in E. now apply Qclt_le_weak.
  - apply Qcle_refl.
Qed.

Lemma max_ub_r (x y : Qc) : y <= max x y.
Proof.
  unfold max. destruct (ltb x y) eqn:E.
  - apply Qcle_refl.
  - now apply ltb_ge in E.
Qed.

Lemma max_cases (x y : Qc) : max x y = x \/ max x y = y.
Proof. unfold max. destruct (ltb x y); auto. Qed.

(** The running maximum is an upper bound of its start and of the list,
    and is one of them. *)
Lemma fold_max_ub (l : list Qc) : forall acc,
  acc <= fold_left max l acc /\ Forall (fun y => y <= fold_left max l acc) l.
Proof.
  induction l as [|y l IH]; intro acc; simpl.
  - split; [apply Qcle_refl | constructor].
  - destruct (IH (max acc y)) as [Hacc Hall]. split.
    + eapply Qcle_trans; [apply max_ub_l | exact Hacc].
    + constructor; [|exact Hall].
      eapply Qcle_trans; [apply max_ub_r | exact Hacc].
Qed.

Lemma fold_max_in (l : list Qc) : forall acc,
  fold_left max l acc = acc \/ In (fold_left max l acc) l.
Proof.
  induction l as [|y l IH]; intro acc; simpl; [now left|].
  destruct (IH (max acc y)) as [H|H]; [|now right; right].
  rewrite H. destruct (max_cases acc y) as [E|E]; rewrite E; auto.
Qed.

Lemma peak_nonneg (a : ndarray) : 0 <= peak a.
Proof. apply fold_max_ub. Qed.

Lemma peak_ub (a : ndarray) : Forall (fun x => [x] <= peak a) (data a).
Proof.
  unfold peak. destruct (fold_max_ub (map Qcabs (data a)) 0) as [_ H].
  rewrite Forall_map in H. exact H.
Qed.

(** On a non-empty array the code's [np.abs(a).max()] is the peak. *)
Lemma np_max_abs (a : ndarray) :
  data a <> [] -> np_max (data (np_abs a)) = Some (peak a).
Proof.
  unfold peak, np_abs. simpl. destruct (data a) as [|x l]; [congruence|].
  intros _. simpl. f_equal. f_equal. symmetry. apply max_r, Qcabs_nonneg.
Qed.

End Order.

(** ** The square-root test against the real RMS *)

Section RealRms.

Lemma this_Q2Qc (q : Q) : (this (Q2Qc q) == q)%Q.
Proof. apply Qred_correct. Qed.

Lemma Q2R_this_mult (x y : Qc) : Q2R (x * y)%Qc = (Q2R x * Q2R y)%R.
Proof. rewrite <- Q2R_mult. apply Qeq_eqR, this_Q2Qc. Qed.

Lemma Q2R_this_plus (x y : Qc) : Q2R (x + y)%Qc = (Q2R x + Q2R y)%R.
Proof. rewrite <- Q2R_plus. apply Qeq_eqR, this_Q2Qc. Qed.

Lemma Q2R_this_inv (x : Qc) : x <> 0%Qc -> Q2R (/ x)%Qc = (/ Q2R x)%R.
Proof.
  intro Hx. rewrite <- Q2R_inv.
  - apply Qeq_eqR, this_Q2Qc.
  - intro E. apply Hx. apply Qc_is_canon. exact E.
Qed.

Lemma Q2R_zero : Q2R 0%Qc = 0%R.
Proof. unfold Q2R. simpl. lra. Qed.

Lemma Qclt_Rlt (x y : Qc) : (x < y)%Qc <-> (Q2R x < Q2R y)%R.
Proof. split; [apply Qlt_Rlt | apply Rlt_Qlt]. Qed.

Lemma Qcle_Rle (x y : Qc) : (x <= y)%Qc <-> (Q2R x <= Q2R y)%R.
Proof. split; [apply Qle_Rle | apply Rle_Qle]. Qed.

(** [sqrt_ltb] decides the comparison of the real square root. *)
Lemma sqrt_ltb_real (q t : Qc) :
  (0 <= q)%Qc ->
  sqrt_ltb (fin q) t = true <-> (sqrt (Q2R q) < Q2R t)%R.
Proof.
  intro Hq. apply Qcle_Rle in Hq. rewrite Q2R_zero in Hq.
  unfold sqrt_ltb. rewrite andb_true_iff, !ltb_lt, !Qclt_Rlt.
  rewrite Q2R_this_mult, Q2R_zero. split.
  - intros [Ht Hlt].
    rewrite <- (sqrt_square (Q2R t)) by lra.
    apply sqrt_lt_1_alt. lra.
  - intro H. pose proof (sqrt_pos (Q2R q)) as Hs.
    split; [lra|].
    rewrite <- (sqrt_sqrt (Q2R q)) by exact Hq.
    apply Rmult_le_0_lt_compat; lra.
Qed.

End RealRms.

(** ** Validation *)

Section Validation.

Local Open Scope Qc_scope.

Lemma Q2R_Z2Qc (z : Z) : Q2R (Z2Qc z) = IZR z.
Proof.
  unfold Z2Qc. rewrite (Qeq_eqR _ _ (this_Q2Qc _)).
  unfold Q2R, inject_Z. simpl. lra.
Qed.

Lemma Z2Qc_pos (z : Z) : (0 < z)%Z -> 0 < Z2Qc z.
Proof.
  intro H. apply Qclt_Rlt. rewrite Q2R_zero, Q2R_Z2Qc. now apply IZR_lt.
Qed.

Lemma sum_squares_nonneg (l : list Qc) : 0 <= sum (map (fun x => x * x) l).
Proof.
  induction l as [|x l IH]; simpl; [apply Qcle_refl|].
  apply Qcle_Rle. apply Qcle_Rle in IH.
  rewrite Q2R_this_plus, Q2R_this_mult.
  rewrite Q2R_zero in *. nra.
Qed.

Lemma div_lt_iff (x y p : Qc) : 0 < p -> (x / p < y <-> x < p * y).
Proof.
  intro Hp. assert (Hp0 : p <> 0) by (apply not_eq_sym, Qclt_not_eq, Hp).
  split; intro H.
  - replace x with (x / p * p) by (field; exact Hp0).
    rewrite (Qcmult_comm p y). now apply Qcmult_lt_compat_r.
  - apply Qclt_Rlt in H. apply Qclt_Rlt. apply Qclt_Rlt in Hp.
    unfold Qcdiv. rewrite Q2R_this_mult in *.
    rewrite (Q2R_this_inv p Hp0), Q2R_zero in *.
    apply (Rmult_lt_reg_r (Q2R p)); [exact Hp|].
    field_simplify; lra.
Qed.

Lemma mean_square_nonneg (a : ndarray) : data a <> [] -> 0 <= mean_square a.
Proof.
  intro Hne. unfold mean_square.
  set (n := Z2Qc (Z.of_nat (length (data a)))).
  assert (Hn : 0 < n).
  { apply Z2Qc_pos. destruct (data a); [congruence | simpl; lia]. }
  apply Qcnot_lt_le. intro H. apply div_lt_iff in H; [|exact Hn].
  rewrite Qcmult_0_r in H.
  exact (Qcle_not_lt _ _ (sum_squares_nonneg (data a)) H).
Qed.

Lemma np_mean_square (a : ndarray) :
  data a <> [] -> np_mean (data (np_square a)) = fin (mean_square a).
Proof.
  unfold mean_square, np_square, np_mean. simpl.
  destruct (data a) as [|x l] eqn:E; [congruence|]. intros _.
  simpl. rewrite length_map. reflexivity.
Qed.

(** The duration test of line 239 is the test [duration < 0.2]. *)
Lemma duration_test (a : ndarray) :
  ltb (Z2Qc (Z.of_nat (length (data a)))) (Z2Qc 16000 * min_duration) = true
  <-> duration 16000 a < Q2Qc (2 # 10).
Proof.
  rewrite ltb_lt. unfold duration, min_duration. symmetry.
  apply div_lt_iff. now apply Z2Qc_pos.
Qed.

(** The silence test of line 246 is the test on the real RMS and the
    peak. *)
Lemma silence_test (a : ndarray) :
  data a <> [] ->
  sqrt_ltb (np_mean (data (np_square a))) silence_threshold
    && ltb (peak a) max_amplitude_threshold = true
  <-> (rms a < Q2R (1 # 1000))%R /\ peak a < Q2Qc (1 # 100).
Proof.
  intro Hne. rewrite np_mean_square by exact Hne.
  rewrite andb_true_iff, ltb_lt.
  rewrite (sqrt_ltb_real _ _ (mean_square_nonneg a Hne)).
  unfold rms, silence_threshold, max_amplitude_threshold. reflexivity.
Qed.

End Validation.

(** ** Normalisation and the cast *)

Section Normalisation.

Local Open Scope Qc_scope.

Lemma normalize_pos (a : ndarray) :
  data a <> [] -> 0 < peak a ->
  normalize a = Ok {| dt := dt a; data := map (fun x => x / peak a) (data a) |}.
Proof.
  intros Hne Hp. unfold normalize. rewrite (np_max_abs a Hne). simpl.
  apply ltb_lt in Hp as Hp'. rewrite Hp'. unfold np_divide.
  destruct (Qc_eq_bool (peak a) 0) eqn:E; [|reflexivity].
  apply Qc_eq_bool_correct in E. rewrite E in Hp.
  exfalso. exact (Qclt_not_eq _ _ Hp eq_refl).
Qed.

Lemma normalize_zero (a : ndarray) :
  data a <> [] -> ~ 0 < peak a -> normalize a = Ok a.
Proof.
  intros Hne Hp. unfold normalize. rewrite (np_max_abs a Hne). simpl.
  destruct (ltb 0 (peak a)) eqn:E; [|reflexivity].
  apply ltb_lt in E. contradiction.
Qed.

Lemma to_float32_eq (a : ndarray) :
  to_float32 a = {| dt := float32; data := data a |}.
Proof. destruct a as [[|] l]; reflexivity. Qed.

(** No array makes the normalisation divide by zero. *)
Lemma normalize_no_zero_division (a : ndarray) :
  normalize a <> Raise FloatingPointError.
Proof.
  unfold normalize. destruct (np_max (data (np_abs a))) as [m|]; simpl.
  - destruct (ltb 0 m) eqn:E; [|discriminate].
    unfold np_divide. destruct (Qc_eq_bool m 0) eqn:Z; [|discriminate].
    apply Qc_eq_bool_correct in Z. subst m. discriminate E.
  - discriminate.
Qed.

End Normalisation.

Lemma normalize_rescaled (a : ndarray) :
  data a <> [] -> normalize a = Ok {| dt := dt a; data := rescaled a |}.
Proof.
  intro Hne. unfold rescaled. destruct (ltb 0%Qc (peak a)) eqn:E.
  - apply ltb_lt in E. rewrite (normalize_pos a Hne E). do 2 f_equal.
    apply map_ext. intro x. unfold Qcdiv. now rewrite Qcmult_1_l.
  - rewrite normalize_zero; [now destruct a | exact Hne |].
    intro H. apply ltb_lt in H. congruence.
Qed.

(** ** What the methods add to the log *)

Lemma set_log_twice (l1 l2 : list event) (self : App) :
  set_log l2 (set_log l1 self) = set_log l2 self.
Proof. reflexivity. Qed.

Lemma added_set_log (self x : App) (d : list event) :
  added self (set_log (log self ++ d) x) = d.
Proof.
  unfold added. simpl.
  rewrite skipn_app, skipn_all, Nat.sub_diag. reflexivity.
Qed.

Lemma statuses_app (l1 l2 : list event) :
  statuses (l1 ++ l2) = statuses l1 ++ statuses l2.
Proof. apply flat_map_app. Qed.

Lemma engine_calls_app (l1 l2 : list event) :
  engine_calls (l1 ++ l2) = engine_calls l1 ++ engine_calls l2.
Proof. apply filter_app. Qed.

Lemma injections_app (l1 l2 : list event) :
  injections (l1 ++ l2) = injections l1 ++ injections l2.
Proof. apply filter_app. Qed.

Lemma shown_app (l1 l2 : list event) (cur : label) :
  shown (l1 ++ l2) cur = shown l2 (shown l1 cur).
Proof.
  revert cur. induction l1 as [|e l1 IH]; intro cur; [reflexivity|].
  destruct e; simpl; apply IH.
Qed.

Lemma last_cons {A} (l : list A) : forall x d, last (x :: l) d = last l x.
Proof.
  induction l as [|y l IH]; intros x d; [reflexivity|].
  change (last (x :: y :: l) d) with (last (y :: l) d).
  now rewrite !IH.
Qed.

(** The label shown is the last one set, when one was set. *)
Lemma shown_statuses (l : list event) (cur : label) :
  shown l cur = last (statuses l) cur.
Proof.
  revert cur. induction l as [|e l IH]; intro cur; [reflexivity|].
  destruct e; simpl shown; rewrite IH; try reflexivity.
  simpl statuses. now rewrite last_cons.
Qed.

(** Unfolds the small effectful operations, down to state passing. *)
Ltac steps :=
  unfold _process_audio, start_thread, _update_status, time_sleep,
    emit, modify;
  cbn -[_type_text validate strip audio_thread];
  rewrite <- ?app_assoc; cbn [app].

(** Splits a conjunction into its parts, and nothing else. *)
Ltac conjs :=
  lazymatch goal with
  | |- _ /\ _ => split; [|conjs]
  | _ => idtac
  end.

(** Typing only writes to the log: keystrokes and pauses, no status and no
    engine call; it stops at the first keystroke that raises. *)
Lemma type_chars_effect (text : pystr) : forall (i : nat) (self : App),
  exists (r : res unit) (d : list event),
    type_chars i text self = (r, set_log (log self ++ d) self)
    /\ statuses d = [] /\ engine_calls d = []
    /\ (r = Ok tt -> injections d = map kbd_type text)
    /\ ((exists j ch e, nth_error text j = Some ch
                        /\ keyboard_controller self (i + j) ch = Some e)
        -> exists e, r = Raise e)
    /\ ((forall j ch, keyboard_controller self j ch = None) -> r = Ok tt).
Proof.
  induction text as [|ch rest IH]; intros i self.
  - exists (Ok tt), []. simpl. unfold ret. rewrite app_nil_r.
    conjs; try reflexivity.
    + now destruct self.
    + intros (j & c & e & Hn & _). destruct j; discriminate Hn.
  - simpl. unfold bind at 1. cbn -[type_chars].
    destruct (keyboard_controller self i ch) as [e|] eqn:K; cbn -[type_chars].
    + exists (Raise e), [kbd_type ch]. conjs; try reflexivity.
      * discriminate.
      * intros _. now exists e.
      * intro Hnone. rewrite Hnone in K. discriminate K.
    + destruct (IH (S i) (set_log ((log self ++ [kbd_type ch]) ++ [sleep 10])
                                 (set_log (log self ++ [kbd_type ch]) self)))
        as (r & d & Hrun & Hs & He & Hi & Hr & Hn).
      rewrite Hrun. exists r, (kbd_type ch :: sleep 10 :: d).
      simpl log. rewrite !set_log_twice, <- !app_assoc. simpl.
      conjs; try assumption; try reflexivity.
      * intro Hok. now rewrite (Hi Hok).
      * intros (j & c & e & Hj & Hk). destruct j as [|j].
        -- simpl in Hj. injection Hj as <-. rewrite Nat.add_0_r in Hk.
           congruence.
        -- apply Hr. exists j, c, e. split; [exact Hj|].
           simpl. now rewrite <- plus_n_Sm in Hk.
Qed.

(** [_type_text] always returns normally; when a keystroke raises, the
    error is printed and nothing else happens. *)
Lemma _type_text_effect (text : pystr) (self : App) :
  exists d : list event,
    _type_text text self = (Ok tt, set_log (log self ++ d) self)
    /\ statuses d = [] /\ engine_calls d = []
    /\ ((exists j ch e, nth_error text j = Some ch
                        /\ keyboard_controller self j ch = Some e)
        -> exists e, In (print (Error_typing_text e)) d)
    /\ ((forall j ch, keyboard_controller self j ch = None)
        -> injections d = map kbd_type text).
Proof.
  unfold _type_text, try_except. unfold bind at 1. cbn -[type_chars].
  unfold bind at 1.
  destruct (type_chars_effect text 0 (set_log (log self ++ [sleep 100]) self))
    as (r & d & Hrun & Hs & He & Hi & Hr & Hn).
  rewrite Hrun. simpl log. rewrite set_log_twice.
  destruct r as [[]|e]; cbn.
  - exists (sleep 100 :: d ++ [print Text_typed]).
    rewrite <- !app_assoc. simpl.
    rewrite statuses_app, engine_calls_app, injections_app, Hs, He.
    conjs; try reflexivity.
    + intro H. destruct (Hr H) as [e E]. discriminate E.
    + intros _. rewrite (Hi eq_refl). simpl. apply app_nil_r.
  - exists (sleep 100 :: d ++ [print (Error_typing_text e)]).
    rewrite <- !app_assoc. simpl.
    rewrite statuses_app, engine_calls_app, Hs, He.
    conjs; try reflexivity.
    + unfold emit, modify. simpl. now rewrite <- app_assoc.
    + intros _. exists e. right. apply in_or_app. right. now left.
    + intro Hnone. discriminate (Hn Hnone).
Qed.

(** ** The outcomes of [transcribe_samples] *)

Section Outcomes.

Variable self : App.
Variable audio_data : ndarray.

Ltac run :=
  unfold transcribe_samples, _update_status, time_sleep, preamble;
  cbn -[_type_text validate strip];
  repeat match goal with
         | H : _ = _ |- _ => rewrite H; cbn -[_type_text validate strip]
         end;
  unfold emit, modify; cbn -[_type_text validate strip];
  rewrite <- ?app_assoc; try reflexivity.

Lemma outcome_invalid (e : Exn) :
  validate (sample_rate self) audio_data = Raise e ->
  transcribe_samples audio_data self
  = (Raise e, set_log (log self ++ preamble audio_data) self).
Proof. intro Hv. run. Qed.

Lemma outcome_too_short :
  validate (sample_rate self) audio_data = Ok too_short ->
  transcribe_samples audio_data self
  = (Ok tt,
     set_log (log self ++ preamble audio_data
              ++ [print Rms_and_max; print Audio_too_short;
                  update_status Too_short orange; sleep 1000;
                  update_status Ready gray]) self).
Proof. intro Hv. run. Qed.

Lemma outcome_silent :
  validate (sample_rate self) audio_data = Ok silent ->
  transcribe_samples audio_data self
  = (Ok tt,
     set_log (log self ++ preamble audio_data
              ++ [print Rms_and_max; print Audio_silence;
                  update_status Silence orange; sleep 1000;
                  update_status Ready gray]) self).
Proof. intro Hv. run. Qed.

Variable audio : ndarray.
Hypothesis Hvalid : validate (sample_rate self) audio_data = Ok (accept audio).

Lemma outcome_engine_error (e : Exn) :
  model self audio = Raise e ->
  transcribe_samples audio_data self
  = (Raise e, set_log (log self ++ dispatch audio_data audio) self).
Proof. intro Hm. unfold dispatch. run. Qed.

Lemma outcome_no_text (result : pystr) :
  model self audio = Ok result ->
  strip result = [] ->
  transcribe_samples audio_data self
  = (Ok tt,
     set_log (log self ++ dispatch audio_data audio
              ++ [print No_text_transcribed; update_status No_text orange;
                  sleep 1000; update_status Ready gray]) self).
Proof. intros Hm Hs. unfold dispatch. run. Qed.

Lemma outcome_text (result : pystr) :
  model self audio = Ok result ->
  strip result <> [] ->
  exists d : list event,
    transcribe_samples audio_data self
    = (Ok tt,
       set_log (log self ++ dispatch audio_data audio
                ++ [print (Transcribed (strip result))] ++ d
                ++ [update_status Ready gray]) self)
    /\ statuses d = [] /\ engine_calls d = []
    /\ ((exists j ch e, nth_error (strip result) j = Some ch
                        /\ keyboard_controller self j ch = Some e)
        -> exists e, In (print (Error_typing_text e)) d)
    /\ ((forall j ch, keyboard_controller self j ch = None)
        -> injections d = map kbd_type (strip result)).
Proof.
  intros Hm Hs. unfold dispatch.
  unfold transcribe_samples, _update_status, time_sleep, preamble.
  cbn -[_type_text validate strip]. rewrite Hvalid.
  cbn -[_type_text validate strip]. rewrite Hm.
  cbn -[_type_text validate strip].
  destruct (strip result) as [|c text] eqn:E; [congruence|].
  unfold bind at 1. cbn -[_type_text validate strip].
  unfold bind at 1.
  match goal with
  | |- context [_type_text ?t ?s] =>
      destruct (_type_text_effect t s) as (d & Hrun & Hd)
  end.
  rewrite Hrun. exists d. split; [|exact Hd].
  cbn. unfold emit, modify. cbn. rewrite <- !app_assoc. reflexivity.
Qed.

End Outcomes.

(** ** Validation policy *)

(** The three cases of [validate] at 16000 samples per second, read as
    tests on the duration, the RMS and the peak. *)
Lemma validate_cases (a : ndarray) :
  data a <> [] ->
  ((duration 16000 a < Q2Qc (2 # 10))%Qc
   /\ validate 16000 a = Ok too_short)
  \/ (~ (duration 16000 a < Q2Qc (2 # 10))%Qc
      /\ ((rms a < Q2R (1 # 1000))%R /\ (peak a < Q2Qc (1 # 100))%Qc)
      /\ validate 16000 a = Ok silent)
  \/ (~ (duration 16000 a < Q2Qc (2 # 10))%Qc
      /\ ~ ((rms a < Q2R (1 # 1000))%R /\ (peak a < Q2Qc (1 # 100))%Qc)
      /\ validate 16000 a
         = Ok (accept {| dt := float32; data := rescaled a |})).
Proof.
  intro Hne.
  assert (Hv : forall v, validate 16000 a = v ->
            validate 16000 a = v) by auto.
  unfold validate in Hv at 1.
  rewrite (np_max_abs a Hne) in Hv. simpl of_max in Hv.
  destruct (ltb (Z2Qc (Z.of_nat (length (data a))))
                (Z2Qc 16000 * min_duration)%Qc) eqn:Hd.
  - left. split; [now apply duration_test | now apply Hv].
  - right.
    assert (Hlong : ~ (duration 16000 a < Q2Qc (2 # 10))%Qc).
    { intro H. apply duration_test in H. congruence. }
    destruct (sqrt_ltb (np_mean (data (np_square a))) silence_threshold
              && ltb (peak a) max_amplitude_threshold) eqn:Hs.
    + left. conjs; [exact Hlong | now apply silence_test | now apply Hv].
    + right. conjs; [exact Hlong | |].
      * intro H. apply (silence_test a Hne) in H. congruence.
      * apply Hv. rewrite (normalize_rescaled a Hne), to_float32_eq.
        reflexivity.
Qed.

(** ** Peak normalisation *)

Section Scaling.

Local Open Scope Qc_scope.

Variable p : Qc.
Hypothesis p_pos : 0 < p.

Lemma p_nonzero : p <> 0.
Proof. apply not_eq_sym, Qclt_not_eq, p_pos. Qed.

Lemma div_mult_cancel (x : Qc) : p * (x / p) = x.
Proof. apply Qcmult_div_r, p_nonzero. Qed.

Lemma ltb_div (x y : Qc) : ltb (x / p) (y / p) = ltb x y.
Proof.
  destruct (ltb x y) eqn:E.
  - apply ltb_lt. apply ltb_lt in E.
    apply (div_lt_iff x (y / p) p p_pos). now rewrite div_mult_cancel.
  - apply ltb_ge. apply ltb_ge in E. apply Qcnot_lt_le. intro H.
    apply (div_lt_iff x (y / p) p p_pos) in H.
    rewrite div_mult_cancel in H. exact (Qcle_not_lt _ _ E H).
Qed.

Lemma max_div (x y : Qc) : max (x / p) (y / p) = max x y / p.
Proof. unfold max. rewrite ltb_div. now destruct (ltb x y). Qed.

Lemma abs_div (x : Qc) : [x / p] = [x] / p.
Proof.
  unfold Qcdiv. rewrite Qcabs_Qcmult. f_equal.
  apply Qcabs_pos. apply Qcnot_lt_le. intro H.
  assert (H1 : p * / p = 1) by (apply Qcmult_inv_r, p_nonzero).
  assert (H2 : / p * p < 0 * p) by now apply Qcmult_lt_compat_r.
  rewrite Qcmult_0_l, Qcmult_comm, H1 in H2.
  apply ltb_lt in H2. discriminate H2.
Qed.

Lemma fold_max_div (l : list Qc) : forall acc,
  fold_left max (map Qcabs (map (fun x => x / p) l)) (acc / p)
  = fold_left max (map Qcabs l) acc / p.
Proof.
  induction l as [|x l IH]; intro acc; [reflexivity|].
  simpl. rewrite abs_div, max_div. apply IH.
Qed.

End Scaling.

Section Idempotence.

Local Open Scope Qc_scope.

Lemma peak_pos_nonempty (a : ndarray) : 0 < peak a -> data a <> [].
Proof.
  intros H E. unfold peak in H. rewrite E in H. simpl in H.
  apply ltb_lt in H. discriminate H.
Qed.

Lemma peak_normalized (a : ndarray) :
  0 < peak a ->
  peak {| dt := dt a; data := map (fun x => x / peak a) (data a) |} = 1.
Proof.
  intro Hp. unfold peak at 1. simpl data.
  replace 0 with (0 / peak a) at 1 by apply Qcmult_0_l.
  rewrite (fold_max_div (peak a) Hp). fold (peak a).
  unfold Qcdiv. apply Qcmult_inv_r, p_nonzero, Hp.
Qed.

Lemma div_one (x : Qc) : x / 1 = x.
Proof. unfold Qcdiv. replace (/ 1) with 1 by reflexivity. apply Qcmult_1_r. Qed.

End Idempotence.

(** C7.  Peak normalisation is idempotent: when the peak is positive the
    normalisation step succeeds, normalising its result again returns that
    same array, and the peak of the result is exactly 1. *)
Theorem normalization_idempotent (a : ndarray) :
  (0 < peak a)%Qc ->
  exists a1 : ndarray,
    normalize a = Ok a1 /\ normalize a1 = Ok a1 /\ peak a1 = 1%Qc.
Proof.
  intro Hp. pose proof (peak_pos_nonempty a Hp) as Hne.
  exists {| dt := dt a; data := map (fun x => (x / peak a)%Qc) (data a) |}.
  pose proof (peak_normalized a Hp) as H1.
  conjs; [now apply normalize_pos | | exact H1].
  rewrite normalize_pos.
  - rewrite H1. simpl. f_equal. f_equal. rewrite map_map.
    apply map_ext. intro x. apply div_one.
  - simpl. destruct (data a); [congruence | discriminate].
  - rewrite H1. reflexivity.
Qed.

Lemma normalization_idempotent_witness :
  (0 < peak loud_half_second)%Qc
  /\ exists a1, normalize loud_half_second = Ok a1
                /\ normalize a1 = Ok a1 /\ peak a1 = 1%Qc.
Proof.
  assert (H : (0 < peak loud_half_second)%Qc)
    by (apply ltb_lt; vm_compute; reflexivity).
  split; [exact H | exact (normalization_idempotent loud_half_second H)].
Defined.

(** ** All-zero samples *)

Section Zeros.

Local Open Scope Qc_scope.

Lemma all_zero_peak (a : ndarray) : all_zero a -> peak a = 0.
Proof.
  unfold all_zero, peak. induction 1 as [|x l Hx _ IH]; [reflexivity|].
  simpl. subst x. exact IH.
Qed.

Lemma all_zero_sum_squares (l : list Qc) :
  Forall (fun x => x = 0) l -> sum (map (fun x => x * x) l) = 0.
Proof.
  induction 1 as [|x l Hx _ IH]; [reflexivity|].
  simpl. subst x. rewrite IH. reflexivity.
Qed.

Lemma all_zero_mean_square (a : ndarray) : all_zero a -> mean_square a = 0.
Proof.
  intro H. unfold mean_square. rewrite (all_zero_sum_squares _ H).
  apply Qcmult_0_l.
Qed.

(** An all-zero array passes the silence test of line 246. *)
Lemma all_zero_silence_test (a : ndarray) :
  data a <> [] -> all_zero a ->
  sqrt_ltb (np_mean (data (np_square a))) silence_threshold
    && ltb (peak a) max_amplitude_threshold = true.
Proof.
  intros Hne Hz. rewrite (np_mean_square a Hne).
  rewrite (all_zero_mean_square a Hz), (all_zero_peak a Hz). reflexivity.
Qed.

(** Validation never divides by zero, whatever the array and the rate. *)
Lemma validate_no_zero_division (sample_rate : Z) (a : ndarray) :
  validate sample_rate a <> Raise FloatingPointError.
Proof.
  unfold validate.
  destruct (np_max (data (np_abs a))) as [m|]; simpl; [|discriminate].
  destruct (ltb _ _); [discriminate|].
  destruct (_ && _); [discriminate|].
  pose proof (normalize_no_zero_division a) as H.
  destruct (normalize a) as [a1|e]; [discriminate|]. congruence.
Qed.

End Zeros.

(** C4, as stated, fails: an all-zero array shorter than 0.2 seconds is
    rejected as too short, not as silence. *)
Lemma zero_peak_rejected_as_silence_counterexample :
  ~ (forall a : ndarray,
       data a <> [] -> all_zero a -> validate 16000 a = Ok silent).
Proof.
  intro H.
  assert (Hz : all_zero silent_block) by (apply Forall_forall; intros x Hx;
    now apply repeat_spec in Hx).
  specialize (H silent_block ltac:(discriminate) Hz).
  vm_compute in H. discriminate H.
Qed.

(** C4, amended.  Every all-zero array (peak 0) is rejected before the
    normalisation step: as too short when its duration is below 0.2
    seconds, as silence otherwise.  And no array at all, at any sample
    rate, makes validation divide by zero: the division by the peak is
    guarded by peak > 0. *)
Theorem zero_peak_rejected (a : ndarray) :
  data a <> [] -> all_zero a ->
  peak a = 0%Qc
  /\ (((duration 16000 a < Q2Qc (2 # 10))%Qc
       /\ validate 16000 a = Ok too_short)
      \/ (~ (duration 16000 a < Q2Qc (2 # 10))%Qc
          /\ validate 16000 a = Ok silent))
  /\ (forall (sample_rate : Z) (b : ndarray),
        validate sample_rate b <> Raise FloatingPointError
        /\ normalize b <> Raise FloatingPointError).
Proof.
  intros Hne Hz. conjs.
  - now apply all_zero_peak.
  - destruct (validate_cases a Hne)
      as [[Hd Hv]|[(Hd & _ & Hv)|(_ & Hs & _)]].
    + left. now split.
    + right. now split.
    + exfalso. apply Hs. apply (silence_test a Hne).
      now apply all_zero_silence_test.
  - intros sr b. split.
    + apply validate_no_zero_division.
    + apply normalize_no_zero_division.
Qed.

Lemma zero_peak_rejected_witness :
  data silent_block <> [] /\ all_zero silent_block
  /\ validate 16000 silent_block = Ok too_short.
Proof.
  assert (Hne : data silent_block <> []) by discriminate.
  assert (Hz : all_zero silent_block).
  { apply Forall_forall. intros x Hx. now apply repeat_spec in Hx. }
  conjs; [exact Hne | exact Hz |].
  destruct (zero_peak_rejected silent_block Hne Hz) as (_ & [[_ H]|[_ H]] & _).
  - exact H.
  - vm_compute in H. discriminate H.
Defined.

(** ** Key matching *)

Lemma key_matches_total (t : trigger) (key : key_event) :
  exists b : bool, key_matches t key = Ok b.
Proof.
  destruct t as [s|k]; simpl; [|eauto].
  unfold hasattr_char. destruct (getattr_char key); eauto.
Qed.

Lemma on_key_press_other_key (key : key_event) (self : App) :
  key_matches (trigger_key self) key = Ok false ->
  on_key_press key self = (Ok tt, self).
Proof. intro H. unfold on_key_press. cbn. rewrite H. reflexivity. Qed.

Lemma on_key_release_other_key (grace : list audio_ev) (key : key_event)
    (self : App) :
  key_matches (trigger_key self) key = Ok false ->
  on_key_release grace key self = (Ok tt, self).
Proof. intro H. unfold on_key_release. cbn. rewrite H. reflexivity. Qed.

(** C10.  Key matching never fails: for every trigger configuration and
    every key event it returns a boolean, no exception.  With a character
    trigger, a key event without a [char] attribute does not match, and
    the press and release handlers return normally and leave the object as
    it is. *)
Theorem key_matching_never_fails :
  (forall (t : trigger) (key : key_event),
     exists b : bool, key_matches t key = Ok b)
  /\ (forall (s : pystr) (key : key_event),
        hasattr_char key = false ->
        key_matches (trigger_str s) key = Ok false
        /\ forall (self : App) (grace : list audio_ev),
             trigger_key self = trigger_str s ->
             on_key_press key self = (Ok tt, self)
             /\ on_key_release grace key self = (Ok tt, self)).
Proof.
  split; [exact key_matches_total|].
  intros s key Hno.
  assert (Hm : key_matches (trigger_str s) key = Ok false)
    by (simpl; now rewrite Hno).
  split; [exact Hm|]. intros self grace Ht. split.
  - apply on_key_press_other_key. now rewrite Ht.
  - apply on_key_release_other_key. now rewrite Ht.
Qed.

Lemma key_matching_never_fails_witness :
  hasattr_char (special esc) = false
  /\ key_matches (trigger_str ascii_r) (special esc) = Ok false.
Proof.
  split; [reflexivity|].
  exact (proj1 (proj2 key_matching_never_fails ascii_r (special esc) eq_refl)).
Defined.

(** ** Starting a session *)

Lemma on_key_press_idle (key : key_event) (self : App) :
  key_matches (trigger_key self) key = Ok true ->
  is_recording self = false ->
  on_key_press key self = (Ok tt, started self).
Proof.
  intros Hm Hr. unfold on_key_press, started, start_events. cbn.
  rewrite Hm. cbn. rewrite Hr. steps. reflexivity.
Qed.

Lemma on_key_press_recording (key : key_event) (self : App) :
  is_recording self = true ->
  on_key_press key self = (Ok tt, self).
Proof.
  intro Hr. unfold on_key_press. cbn.
  destruct (key_matches_total (trigger_key self) key) as [b Hb].
  rewrite Hb. cbn. rewrite Hr. now destruct b.
Qed.

(** C5.  A trigger-key press while no recording is in progress (READY;
    the guard of line 124 is the flag [is_recording]) starts exactly one
    session: the buffer is cleared, one recording thread is launched and
    the state becomes RECORDING.  A trigger-key press while recording (key
    repeat) starts nothing and leaves the object, its buffer and its log
    exactly as they were. *)
Theorem trigger_press_starts_once (key : key_event) (self : App) :
  key_matches (trigger_key self) key = Ok true ->
  (is_recording self = false ->
   on_key_press key self = (Ok tt, started self)
   /\ threads_started (added self (started self)) = [recording_thread]
   /\ audio_buffer (started self) = []
   /\ is_recording (started self) = true
   /\ state (started self) = RECORDING_)
  /\ (is_recording self = true ->
      on_key_press key self = (Ok tt, self)).
Proof.
  intro Hm. split.
  - intro Hr. conjs; try reflexivity.
    + now apply on_key_press_idle.
    + unfold started. now rewrite added_set_log.
    + unfold state, started. simpl log. rewrite shown_app. reflexivity.
  - apply on_key_press_recording.
Qed.

Lemma trigger_press_starts_once_witness :
  key_matches (trigger_key app0) (special ctrl_r) = Ok true
  /\ is_recording app0 = false
  /\ on_key_press (special ctrl_r) app0 = (Ok tt, started app0)
  /\ is_recording (started app0) = true
  /\ on_key_press (special ctrl_r) (started app0) = (Ok tt, started app0).
Proof.
  conjs.
  - reflexivity.
  - reflexivity.
  - exact (proj1 (proj1 (trigger_press_starts_once (special ctrl_r) app0
                           eq_refl) eq_refl)).
  - reflexivity.
  - exact (proj2 (trigger_press_starts_once (special ctrl_r) (started app0)
                    eq_refl) eq_refl).
Defined.

(** ** The audio thread and the buffer *)

Section AudioThread.

Variables (t : trigger) (sr : Z) (st : bool) (m : ndarray -> res pystr)
          (k : nat -> N -> option Exn) (dev : sounddevice).

(** While the flag is set, whole callbacks append their blocks in order. *)
Lemma whole_callbacks_recording (cbs : list (block * bool)) :
  forall (buf : list ndarray) (lg : list event),
    audio_thread (whole_callbacks cbs) (mk_app t sr true buf st m k dev None lg)
    = (Ok tt,
       mk_app t sr true (buf ++ map (fun c => flatten (fst c)) cbs)
              st m k dev None (lg ++ status_prints cbs)).
Proof.
  induction cbs as [|[indata status] cbs IH]; intros buf lg.
  - simpl. now rewrite !app_nil_r.
  - simpl whole_callbacks. simpl audio_thread.
    destruct status; cbn -[audio_thread];
      unfold emit, modify; cbn -[audio_thread];
      unfold set_in_callback, set_audio_buffer, set_log; cbn -[audio_thread];
      rewrite IH; simpl; rewrite <- !app_assoc; reflexivity.
Qed.

(** Once the flag is cleared, whole callbacks append nothing. *)
Lemma whole_callbacks_stopped (cbs : list (block * bool)) :
  forall (buf : list ndarray) (lg : list event),
    audio_thread (whole_callbacks cbs) (mk_app t sr false buf st m k dev None lg)
    = (Ok tt,
       mk_app t sr false buf st m k dev None (lg ++ status_prints cbs)).
Proof.
  induction cbs as [|[indata status] cbs IH]; intros buf lg.
  - simpl. now rewrite !app_nil_r.
  - simpl whole_callbacks. simpl audio_thread.
    destruct status; cbn -[audio_thread];
      unfold emit, modify; cbn -[audio_thread];
      unfold set_in_callback, set_audio_buffer, set_log; cbn -[audio_thread];
      rewrite IH; simpl; rewrite <- ?app_assoc; reflexivity.
Qed.

End AudioThread.

(** A whole callback is the two steps of the audio thread in a row. *)
Lemma audio_callback_whole (indata : block) (status : bool) (self : App) :
  audio_thread (whole_callbacks [(indata, status)]) self
  = audio_callback indata status self.
Proof.
  destruct self as [t sr r buf st m k dev ic lg].
  destruct status, r; reflexivity.
Qed.

Lemma audio_thread_app (l1 l2 : list audio_ev) (self : App) :
  audio_thread (l1 ++ l2) self
  = (audio_thread l1;; audio_thread l2) self.
Proof.
  revert self. induction l1 as [|ev l1 IH]; intro self; [reflexivity|].
  simpl. unfold bind in *.
  destruct (audio_step ev self) as [[[]|e] self']; [apply IH | reflexivity].
Qed.

Section Release.

Variables (t : trigger) (sr : Z) (st : bool) (m : ndarray -> res pystr)
          (k : nat -> N -> option Exn) (dev : sounddevice).
Variable key : key_event.
Hypothesis key_is_trigger : key_matches t key = Ok true.

Lemma on_key_release_recording (grace : list audio_ev) (buf : list ndarray)
    (ic : option block) (lg : list event) :
  on_key_release grace key (mk_app t sr true buf st m k dev ic lg)
  = (audio_thread grace;; hand_over)
      (mk_app t sr false buf st m k dev ic (lg ++ stop_events)).
Proof.
  unfold on_key_release, stop_events. cbn -[audio_thread hand_over].
  rewrite key_is_trigger. steps. reflexivity.
Qed.

End Release.

(** A release while nothing is being recorded does nothing. *)
Lemma on_key_release_idle (grace : list audio_ev) (key : key_event)
    (self : App) :
  is_recording self = false ->
  on_key_release grace key self = (Ok tt, self).
Proof.
  intro Hr. unfold on_key_release. cbn -[audio_thread hand_over].
  destruct (key_matches_total (trigger_key self) key) as [b Hb].
  rewrite Hb. cbn -[audio_thread hand_over]. rewrite Hr. now destruct b.
Qed.

(** ** A session, from the key press to the hand-over *)

Section Session.

Variables (t : trigger) (sr : Z) (st : bool) (m : ndarray -> res pystr)
          (k : nat -> N -> option Exn) (dev : sounddevice).
Variable key : key_event.
Hypothesis key_is_trigger : key_matches t key = Ok true.

Lemma on_key_press_fields (buf : list ndarray) (ic : option block)
    (lg : list event) :
  on_key_press key (mk_app t sr false buf st m k dev ic lg)
  = (Ok tt, mk_app t sr true [] st m k dev ic (lg ++ start_events)).
Proof.
  unfold on_key_press. cbn. rewrite key_is_trigger. steps. reflexivity.
Qed.

Lemma hand_over_fields (buf : list ndarray) (lg : list event) :
  hand_over (mk_app t sr false buf st m k dev None lg)
  = (Ok tt,
     mk_app t sr false buf st m k dev None (lg ++ hand_over_events buf)).
Proof. unfold hand_over. destruct buf; steps; reflexivity. Qed.

Lemma recording_state_fields (cbs : list (block * bool))
    (last : option (block * bool)) (buf : list ndarray) (lg : list event) :
  recording_state key cbs last (mk_app t sr false buf st m k dev None lg)
  = mk_app t sr true (map (fun c => flatten (fst c)) cbs) st m k dev
           (option_map fst last)
           (lg ++ start_events ++ status_prints cbs
               ++ status_prints (match last with
                                 | Some c => [c]
                                 | None => []
                                 end)).
Proof.
  unfold recording_state, exec. rewrite on_key_press_fields. simpl snd.
  rewrite audio_thread_app. unfold bind.
  rewrite whole_callbacks_recording.
  destruct last as [[b [|]]|]; cbn; rewrite <- ?app_assoc;
    rewrite ?app_nil_r; reflexivity.
Qed.

Lemma stopped_state_fields (cbs : list (block * bool))
    (last : option (block * bool)) (late : list (block * bool))
    (buf : list ndarray) (lg : list event) :
  let self := mk_app t sr false buf st m k dev None lg in
  stopped_state key cbs last late self
  = mk_app t sr false (map flatten (kept cbs last)) st m k dev None
           (log (recording_state key cbs last self)
              ++ stop_events ++ status_prints late
              ++ hand_over_events (map flatten (kept cbs last))).
Proof.
  intro self. unfold stopped_state, exec, self.
  rewrite recording_state_fields.
  rewrite (on_key_release_recording t sr st m k dev key key_is_trigger).
  unfold bind at 1. rewrite audio_thread_app. unfold bind at 1.
  unfold kept. rewrite map_app, map_map.
  destruct last as [[b status]|]; cbn -[hand_over whole_callbacks];
    unfold set_in_callback, set_audio_buffer;
    cbn -[hand_over whole_callbacks];
    rewrite whole_callbacks_stopped, hand_over_fields; simpl;
    rewrite <- ?app_assoc, ?app_nil_r; reflexivity.
Qed.

End Session.

Lemma skipn_length_app {A} (l d : list A) : skipn (length l) (l ++ d) = d.
Proof. rewrite skipn_app, skipn_all, Nat.sub_diag. reflexivity. Qed.

Lemma threads_started_app (l1 l2 : list event) :
  threads_started (l1 ++ l2) = threads_started l1 ++ threads_started l2.
Proof. apply flat_map_app. Qed.

Lemma status_prints_quiet (cbs : list (block * bool)) :
  threads_started (status_prints cbs) = []
  /\ statuses (status_prints cbs) = []
  /\ engine_calls (status_prints cbs) = [].
Proof.
  induction cbs as [|[b [|]] cbs (IH1 & IH2 & IH3)]; simpl; auto.
Qed.

Lemma np_concatenate_data (chunks : list ndarray) :
  chunks <> [] ->
  exists audio_data : ndarray,
    np_concatenate chunks = Ok audio_data
    /\ data audio_data = concat (map data chunks).
Proof.
  destruct chunks as [|c rest]; [congruence|]. intros _.
  eexists. split; reflexivity.
Qed.

(** With something in the buffer, [_transcribe_and_type] validates the
    concatenation of the buffer, under its [except] clause. *)
Lemma _transcribe_and_type_samples (self : App) (audio_data : ndarray) :
  np_concatenate (audio_buffer self) = Ok audio_data ->
  _transcribe_and_type self
  = try_except (transcribe_samples audio_data) transcription_failed self.
Proof.
  intro H. unfold _transcribe_and_type, try_except.
  cbn -[transcribe_samples transcription_failed].
  destruct (audio_buffer self) as [|c rest]; [discriminate H|].
  cbn -[transcribe_samples transcription_failed np_concatenate].
  rewrite H. reflexivity.
Qed.

(** ** Failures *)

Lemma try_except_ok {A} (body : M A) (handler : Exn -> M A) (self after : App)
    (a : A) :
  body self = (Ok a, after) -> try_except body handler self = (Ok a, after).
Proof. intro H. unfold try_except. now rewrite H. Qed.

Lemma try_except_raise {A} (body : M A) (handler : Exn -> M A)
    (self after : App) (e : Exn) :
  body self = (Raise e, after) ->
  try_except body handler self = handler e after.
Proof. intro H. unfold try_except. now rewrite H. Qed.

Lemma transcription_failed_run (e : Exn) (self : App) :
  transcription_failed e self
  = (Ok tt, set_log (log self ++ failure_events e) self).
Proof. unfold transcription_failed, failure_events. steps. reflexivity. Qed.

Lemma state_ends_ready (after : App) (l : list event) :
  log after = l ++ [update_status Ready gray] -> state after = READY.
Proof. intro H. unfold state. rewrite H, shown_app. reflexivity. Qed.

(** A failure while processing: the validation raises, or the engine
    does.  Either way the overlay shows Error, then, one second later,
    Ready. *)
Lemma processing_failure_recovers (self : App) (a audio : ndarray) (e : Exn) :
  np_concatenate (audio_buffer self) = Ok a ->
  validate (sample_rate self) a = Raise e
  \/ (validate (sample_rate self) a = Ok (accept audio)
      /\ model self audio = Raise e) ->
  let after := exec _transcribe_and_type self in
  exists d : list event,
    added self after = d ++ failure_events e
    /\ statuses d = []
    /\ injections d = []
    /\ state after = READY.
Proof.
  intros Hcat Hfail after. unfold after, exec.
  rewrite (_transcribe_and_type_samples self a Hcat).
  destruct Hfail as [Hv|[Hv Hm]].
  - rewrite (try_except_raise _ _ _ _ _ (outcome_invalid self a e Hv)).
    rewrite transcription_failed_run. simpl snd. simpl log.
    exists (preamble a). rewrite <- app_assoc, added_set_log.
    conjs; try reflexivity.
    apply (state_ends_ready _ (log self ++ preamble a
             ++ removelast (failure_events e))).
    simpl. rewrite <- !app_assoc. reflexivity.
  - rewrite (try_except_raise _ _ _ _ _
               (outcome_engine_error self a audio Hv e Hm)).
    rewrite transcription_failed_run. simpl snd. simpl log.
    exists (dispatch a audio). rewrite <- app_assoc, added_set_log.
    conjs; try reflexivity.
    apply (state_ends_ready _ (log self ++ dispatch a audio
             ++ removelast (failure_events e))).
    simpl. rewrite <- !app_assoc. reflexivity.
Qed.

(** A failure while recording: [_record_audio] clears the flag and sets
    the overlay to Error, and returns. *)
Lemma recording_failure (self : App) (e : Exn) :
  InputStream (sd self) = Some e ->
  _record_audio_step at_open self
  = (Ok finished,
     set_log (log self
              ++ [stream_open (sample_rate self) (sample_rate self / 10);
                  print (Error_during_recording e); print Traceback;
                  update_status Error red])
             (set_is_recording false self)).
Proof.
  intro H. unfold _record_audio_step, try_except, recording_failed.
  cbn. rewrite H. steps. reflexivity.
Qed.

(** C2, at a failing input: the trigger is pressed on an object whose
    input device cannot be opened.  The recording thread fails, the overlay
    goes from RECORDING to Error and stays there: the thread has finished,
    no pause and no return to Ready were logged, and releasing the key, or
    any other key event short of a new trigger press, changes nothing. *)
Theorem recording_failure_stays_in_error :
  let pressed := exec (on_key_press (special ctrl_r)) deaf_app in
  let failed := exec (_record_audio_step at_open) pressed in
  fst (_record_audio_step at_open pressed) = Ok finished
  /\ statuses (added deaf_app failed) = [RECORDING; Error]
  /\ ~ In (sleep 1000) (added deaf_app failed)
  /\ state failed = ERROR
  /\ forall (grace : list audio_ev) (key : key_event),
       on_key_release grace key failed = (Ok tt, failed).
Proof.
  intros pressed failed. conjs; try reflexivity.
  - vm_compute. intros [H|[H|[H|[H|[H|[H|[H|[]]]]]]]]; discriminate H.
  - intros grace key. now apply on_key_release_idle.
Qed.

(** ** Rejected sessions *)

(** C6, as stated, fails on the empty buffer: a session in which no block
    was recorded goes from "Processing..." straight to "Ready"; the
    diagnostic is a printed line, no label is shown for it. *)
Lemma empty_session_counterexample :
  let recording := recording_state (special ctrl_r) [] None app0 in
  let stopped := stopped_state (special ctrl_r) [] None [] app0 in
  audio_buffer stopped = []
  /\ statuses (added recording stopped) = [Processing; Ready]
  /\ ~ rejected_with_diagnostic recording stopped.
Proof.
  intros recording stopped. conjs; try reflexivity.
  intros (_ & H & _). vm_compute in H. discriminate H.
Qed.

Lemma short_duration (a : ndarray) :
  (length (data a) < 3200)%nat -> (duration 16000 a < Q2Qc (2 # 10))%Qc.
Proof.
  intro Hlt. apply duration_test, ltb_lt, Qclt_Rlt.
  unfold min_duration. rewrite Q2R_this_mult, !Q2R_Z2Qc.
  rewrite (Qeq_eqR _ _ (this_Q2Qc _)).
  replace (Q2R (2 # 10)) with (/ 5)%R by (unfold Q2R; simpl; lra).
  apply (Rmult_lt_reg_r 5); [lra|].
  replace (16000 * / 5 * 5)%R with (IZR 16000) by lra.
  rewrite <- mult_IZR. apply IZR_lt. lia.
Qed.

Lemma short_is_too_short (a : ndarray) :
  (0 < length (data a) < 3200)%nat -> validate 16000 a = Ok too_short.
Proof.
  intros [Hpos Hlt].
  assert (Hne : data a <> []).
  { destruct (data a); [inversion Hpos | discriminate]. }
  pose proof (short_duration a Hlt) as Hshort.
  destruct (validate_cases a Hne) as [[_ H]|[[Hd _]|[Hd _]]];
    [exact H | contradiction | contradiction].
Qed.

(** C6, amended.  A session whose buffer is empty at the hand-over starts
    no transcription thread, never calls the engine, prints "No audio
    captured." and sets the overlay to Ready directly.  A session whose
    samples are too short or silent never calls the engine either, shows
    "Too short" or "Silence", waits one second and returns to Ready.  Any
    recording shorter than 0.2 seconds at 16 kHz, silent or not, is
    rejected as too short. *)
Theorem rejected_sessions_return_to_ready :
  (forall (key : key_event) (self : App) (late : list (block * bool)),
     key_matches (trigger_key self) key = Ok true ->
     is_recording self = false ->
     in_callback self = None ->
     let recording := recording_state key [] None self in
     let stopped := stopped_state key [] None late self in
     added recording stopped
     = stop_events ++ status_prints late
       ++ [print No_audio_captured; update_status Ready gray]
     /\ threads_started (added recording stopped) = []
     /\ engine_calls (added recording stopped) = []
     /\ state stopped = READY)
  /\ (forall (self : App) (a : ndarray) (v : verdict),
        np_concatenate (audio_buffer self) = Ok a ->
        validate (sample_rate self) a = Ok v ->
        v = too_short \/ v = silent ->
        let after := exec _transcribe_and_type self in
        added self after
        = rejection_events a
            (match v with too_short => Audio_too_short | _ => Audio_silence end)
            (match v with too_short => Too_short | _ => Silence end)
        /\ engine_calls (added self after) = []
        /\ rejected_with_diagnostic self after)
  /\ (forall a : ndarray,
        (0 < length (data a) < 3200)%nat -> validate 16000 a = Ok too_short).
Proof.
  conjs.
  - intros key self late Hm Hr Hc.
    destruct self as [t sr r buf st m k dev ic lg].
    simpl in Hm, Hr, Hc. subst r ic. intros recording stopped.
    assert (Hadd : added recording stopped
                   = stop_events ++ status_prints late
                     ++ [print No_audio_captured; update_status Ready gray]).
    { unfold recording, stopped, added.
      rewrite (stopped_state_fields t sr st m k dev key Hm). cbn [log].
      now rewrite skipn_length_app. }
    destruct (status_prints_quiet late) as (Ht & Hs & He).
    conjs.
    + exact Hadd.
    + rewrite Hadd, !threads_started_app, Ht. reflexivity.
    + rewrite Hadd, !engine_calls_app, He. reflexivity.
    + unfold stopped.
      rewrite (stopped_state_fields t sr st m k dev key Hm).
      unfold state. cbn [log]. rewrite !shown_app. reflexivity.
  - intros self a v Hcat Hv Hrej after.
    assert (Hrun : _transcribe_and_type self
              = (Ok tt,
                 set_log (log self ++ rejection_events a
                    (match v with too_short => Audio_too_short
                                | _ => Audio_silence end)
                    (match v with too_short => Too_short
                                | _ => Silence end)) self)).
    { rewrite (_transcribe_and_type_samples self a Hcat).
      apply try_except_ok.
      destruct Hrej; subst v;
        [apply outcome_too_short | apply outcome_silent]; exact Hv. }
    assert (Hadd : added self after = rejection_events a
                    (match v with too_short => Audio_too_short
                                | _ => Audio_silence end)
                    (match v with too_short => Too_short
                                | _ => Silence end)).
    { unfold after, exec. rewrite Hrun. apply added_set_log. }
    assert (Hready : state after = READY).
    { unfold after, exec. rewrite Hrun. simpl snd.
      unfold state, rejection_events. simpl log.
      rewrite !shown_app. reflexivity. }
    unfold rejected_with_diagnostic. rewrite Hadd.
    destruct Hrej; subst v; conjs; try reflexivity; exact Hready.
  - exact short_is_too_short.
Qed.

Lemma rejected_sessions_return_to_ready_witness :
  (0 < length (data silent_block) < 3200)%nat
  /\ validate 16000 silent_block = Ok too_short
  /\ np_concatenate (audio_buffer (with_recording silent_block app0))
     = Ok silent_block
  /\ rejected_with_diagnostic
       (with_recording silent_block app0)
       (exec _transcribe_and_type (with_recording silent_block app0))
  /\ state (stopped_state (special ctrl_r) [] None [] app0) = READY.
Proof.
  destruct rejected_sessions_return_to_ready as (Hempty & Hrej & Hshort).
  assert (Hlen : (0 < length (data silent_block) < 3200)%nat)
    by (vm_compute; lia).
  assert (Hcat : np_concatenate (audio_buffer (with_recording silent_block app0))
                 = Ok silent_block) by reflexivity.
  pose proof (Hshort silent_block Hlen) as Hv.
  conjs.
  - exact Hlen.
  - exact Hv.
  - exact Hcat.
  - exact (proj2 (proj2 (Hrej (with_recording silent_block app0) silent_block
                              too_short Hcat Hv (or_introl eq_refl)))).
  - exact (proj2 (proj2 (proj2 (Hempty (special ctrl_r) app0 []
                                       eq_refl eq_refl eq_refl)))).
Defined.

(** ** Transcription outcomes *)

(** C8.  When the engine's text is empty after [strip], nothing is typed:
    the session logs the engine call, prints "No text transcribed.", shows
    "No text" for one second and returns to Ready, without the Error
    label. *)
Theorem empty_transcription_types_nothing (self : App) (a audio : ndarray)
    (result : pystr) :
  np_concatenate (audio_buffer self) = Ok a ->
  validate (sample_rate self) a = Ok (accept audio) ->
  model self audio = Ok result ->
  strip result = [] ->
  let after := exec _transcribe_and_type self in
  added self after
  = dispatch a audio
    ++ [print No_text_transcribed; update_status No_text orange;
        sleep 1000; update_status Ready gray]
  /\ injections (added self after) = []
  /\ statuses (added self after) = [No_text; Ready]
  /\ state after = READY.
Proof.
  intros Hcat Hv Hm Hs after.
  assert (Hrun : _transcribe_and_type self
            = (Ok tt,
               set_log (log self ++ dispatch a audio
                        ++ [print No_text_transcribed;
                            update_status No_text orange;
                            sleep 1000; update_status Ready gray]) self)).
  { rewrite (_transcribe_and_type_samples self a Hcat).
    apply try_except_ok. now apply (outcome_no_text self a audio Hv result). }
  assert (Hadd : added self after
                 = dispatch a audio
                   ++ [print No_text_transcribed; update_status No_text orange;
                       sleep 1000; update_status Ready gray]).
  { unfold after, exec. rewrite Hrun. apply added_set_log. }
  conjs.
  - exact Hadd.
  - rewrite Hadd. reflexivity.
  - rewrite Hadd. reflexivity.
  - unfold after, exec. rewrite Hrun. unfold state. simpl log.
    rewrite !shown_app. reflexivity.
Qed.

Lemma empty_transcription_types_nothing_witness :
  np_concatenate (audio_buffer app_blank) = Ok loud_half_second
  /\ (exists audio,
        validate (sample_rate app_blank) loud_half_second = Ok (accept audio)
        /\ model app_blank audio = Ok blank)
  /\ strip blank = []
  /\ injections (added app_blank (exec _transcribe_and_type app_blank)) = []
  /\ state (exec _transcribe_and_type app_blank) = READY.
Proof.
  assert (Hcat : np_concatenate (audio_buffer app_blank) = Ok loud_half_second)
    by reflexivity.
  assert (Hne : data loud_half_second <> []) by discriminate.
  destruct (validate_cases loud_half_second Hne)
    as [[_ E]|[(_ & _ & E)|(_ & _ & E)]];
    [vm_compute in E; discriminate E | vm_compute in E; discriminate E |].
  pose proof (empty_transcription_types_nothing app_blank loud_half_second
                _ blank Hcat E eq_refl eq_refl) as (_ & Hi & _ & Hs).
  conjs.
  - exact Hcat.
  - eexists. split; [exact E | reflexivity].
  - reflexivity.
  - exact Hi.
  - exact Hs.
Defined.

(** C9.  When a keystroke of the injection raises after a successful
    transcription, [_type_text] catches and prints the error; the session
    returns normally, the only label it sets is Ready, and the Error label
    is never shown. *)
Theorem injection_failure_is_local (self : App) (a audio : ndarray)
    (result : pystr) :
  np_concatenate (audio_buffer self) = Ok a ->
  validate (sample_rate self) a = Ok (accept audio) ->
  model self audio = Ok result ->
  (exists j ch e, nth_error (strip result) j = Some ch
                  /\ keyboard_controller self j ch = Some e) ->
  let after := exec _transcribe_and_type self in
  fst (_transcribe_and_type self) = Ok tt
  /\ (exists e, In (print (Error_typing_text e)) (added self after))
  /\ statuses (added self after) = [Ready]
  /\ engine_calls (added self after) = [transcribe audio]
  /\ state after = READY.
Proof.
  intros Hcat Hv Hm Hraise after.
  assert (Hs : strip result <> []).
  { destruct Hraise as (j & ch & e & Hn & _).
    destruct (strip result); [destruct j; discriminate Hn | discriminate]. }
  destruct (outcome_text self a audio Hv result Hm Hs)
    as (d & Hrun & Hst & Hen & Herr & _).
  assert (Hrun' : _transcribe_and_type self
            = (Ok tt,
               set_log (log self ++ dispatch a audio
                        ++ [print (Transcribed (strip result))] ++ d
                        ++ [update_status Ready gray]) self)).
  { rewrite (_transcribe_and_type_samples self a Hcat).
    now apply try_except_ok. }
  assert (Hadd : added self after
                 = dispatch a audio
                   ++ [print (Transcribed (strip result))] ++ d
                   ++ [update_status Ready gray]).
  { unfold after, exec. rewrite Hrun'. apply added_set_log. }
  destruct (Herr Hraise) as [e He].
  conjs.
  - now rewrite Hrun'.
  - exists e. rewrite Hadd. apply in_or_app. right. simpl. right.
    apply in_or_app. now left.
  - rewrite Hadd, !statuses_app, Hst. reflexivity.
  - rewrite Hadd, !engine_calls_app, Hen. reflexivity.
  - unfold after, exec. rewrite Hrun'. unfold state. simpl log.
    repeat (rewrite shown_app; simpl). reflexivity.
Qed.

Lemma injection_failure_is_local_witness :
  np_concatenate (audio_buffer app_stuck) = Ok loud_half_second
  /\ (exists audio,
        validate (sample_rate app_stuck) loud_half_second = Ok (accept audio)
        /\ model app_stuck audio = Ok hello)
  /\ (exists j ch e, nth_error (strip hello) j = Some ch
                     /\ keyboard_controller app_stuck j ch = Some e)
  /\ fst (_transcribe_and_type app_stuck) = Ok tt
  /\ statuses (added app_stuck (exec _transcribe_and_type app_stuck)) = [Ready]
  /\ state (exec _transcribe_and_type app_stuck) = READY.
Proof.
  assert (Hcat : np_concatenate (audio_buffer app_stuck) = Ok loud_half_second)
    by reflexivity.
  assert (Hne : data loud_half_second <> []) by discriminate.
  assert (Hk : exists j ch e, nth_error (strip hello) j = Some ch
                 /\ keyboard_controller app_stuck j ch = Some e).
  { exists 2%nat, 108%N, InjectionError. split; reflexivity. }
  destruct (validate_cases loud_half_second Hne)
    as [[_ E]|[(_ & _ & E)|(_ & _ & E)]];
    [vm_compute in E; discriminate E | vm_compute in E; discriminate E |].
  pose proof (injection_failure_is_local app_stuck loud_half_second
                _ hello Hcat E eq_refl Hk) as (Hok & _ & Hst & _ & Hs).
  conjs.
  - exact Hcat.
  - eexists. split; [exact E | reflexivity].
  - exact Hk.
  - exact Hok.
  - exact Hst.
  - exact Hs.
Defined.

(** Whatever the buffer, the engine and the keyboard do,
    [_transcribe_and_type] returns normally and leaves the overlay at
    Ready. *)
Lemma _transcribe_and_type_ends_ready (self : App) :
  fst (_transcribe_and_type self) = Ok tt
  /\ state (exec _transcribe_and_type self) = READY.
Proof.
  destruct (audio_buffer self) as [|c rest] eqn:Hbuf.
  - unfold exec, _transcribe_and_type, try_except.
    cbn -[transcribe_samples]. rewrite Hbuf. steps.
    split; [reflexivity|]. unfold state. simpl log.
    repeat (rewrite shown_app; simpl). reflexivity.
  - destruct (np_concatenate_data (audio_buffer self)) as (a & Hcat & _);
      [congruence|].
    unfold exec. rewrite (_transcribe_and_type_samples self a Hcat).
    assert (Hfail : forall e s,
              fst (transcription_failed e s) = Ok tt
              /\ state (snd (transcription_failed e s)) = READY).
    { intros e s. rewrite transcription_failed_run. split; [reflexivity|].
      unfold state. simpl. repeat (rewrite shown_app; simpl). reflexivity. }
    destruct (validate (sample_rate self) a) as [[| |audio]|e] eqn:Hv.
    + rewrite (try_except_ok _ _ _ _ _ (outcome_too_short self a Hv)).
      split; [reflexivity|]. unfold state. simpl.
      repeat (rewrite shown_app; simpl). reflexivity.
    + rewrite (try_except_ok _ _ _ _ _ (outcome_silent self a Hv)).
      split; [reflexivity|]. unfold state. simpl.
      repeat (rewrite shown_app; simpl). reflexivity.
    + destruct (model self audio) as [result|e] eqn:Hm.
      * destruct (strip result) as [|ch text] eqn:Hs.
        -- rewrite (try_except_ok _ _ _ _ _
                      (outcome_no_text self a audio Hv result Hm Hs)).
           split; [reflexivity|]. unfold state. simpl.
           repeat (rewrite shown_app; simpl). reflexivity.
        -- destruct (outcome_text self a audio Hv result Hm)
             as (d & Hrun & _); [congruence|].
           rewrite (try_except_ok _ _ _ _ _ Hrun).
           split; [reflexivity|]. unfold state. simpl.
           repeat (rewrite shown_app; simpl). reflexivity.
      * rewrite (try_except_raise _ _ _ _ _
                   (outcome_engine_error self a audio Hv e Hm)).
        apply Hfail.
    + rewrite (try_except_raise _ _ _ _ _ (outcome_invalid self a e Hv)).
      apply Hfail.
Qed.

(** ** Trimming *)

Lemma lstrip_empty (s : pystr) : lstrip s = [] <-> forallb isspace s = true.
Proof.
  induction s as [|c s IH]; simpl; [tauto|].
  destruct (isspace c); simpl; [exact IH|].
  split; discriminate.
Qed.

Lemma lstrip_head (s : pystr) (c : N) (rest : pystr) :
  lstrip s = c :: rest -> isspace c = false.
Proof.
  induction s as [|x s IH]; simpl; [discriminate|].
  destruct (isspace x) eqn:E; [exact IH|].
  intro H. injection H as <- _. exact E.
Qed.

(** The text is empty after [strip] exactly when it holds only white
    space. *)
Lemma strip_empty (s : pystr) : strip s = [] <-> forallb isspace s = true.
Proof.
  unfold strip. split.
  - intro H. apply lstrip_empty.
    destruct (lstrip s) as [|c rest] eqn:E; [reflexivity|].
    assert (Hr : lstrip (rev (c :: rest)) = []).
    { rewrite <- (rev_involutive (lstrip (rev (c :: rest)))).
      now rewrite H. }
    apply lstrip_empty in Hr. rewrite forallb_forall in Hr.
    pose proof (lstrip_head s c rest E) as Hc.
    rewrite (Hr c) in Hc; [discriminate Hc|].
    apply in_rev. rewrite rev_involutive. now left.
  - intro H. apply lstrip_empty in H. rewrite H. reflexivity.
Qed.

(** ** Scenarios of the specification, evaluated *)

(** Scenario A: 0.1 s of silence is too short. *)
Example scenario_a : validate 16000 silent_block = Ok too_short.
Proof. vm_compute. reflexivity. Qed.

(** Scenario B: 0.5 s at amplitude 0.0005 (RMS 0.0005, peak 0.0005) is
    silence. *)
Example scenario_b :
  validate 16000 {| dt := float32;
                    data := repeat (Q2Qc (5 # 10000)) (Z.to_nat 8000) |}
  = Ok silent.
Proof. vm_compute. reflexivity. Qed.

(** Scenario C: one second with peak 0.5 is accepted with peak 1. *)
Example scenario_c :
  verdict_of
    (validate 16000 {| dt := float64;
                       data := Q2Qc (1 # 4) :: Q2Qc (-1 # 2)
                               :: repeat (Q2Qc (1 # 8)) (Z.to_nat 15998) |})
  = Some (2%nat, [1 # 2; -1 # 1]%Q).
Proof. vm_compute. reflexivity. Qed.

(** An array of exactly 0.2 s is long enough; an empty array makes
    [max] raise before any check. *)
Example exactly_one_fifth_of_a_second :
  validate 16000 {| dt := float32; data := repeat 0%Qc (Z.to_nat 3200) |}
  = Ok silent.
Proof. vm_compute. reflexivity. Qed.

Example empty_array_raises (sample_rate : Z) (d : dtype) :
  validate sample_rate {| dt := d; data := [] |} = Raise ValueError.
Proof. reflexivity. Qed.

Example strip_hello : strip hello = [104; 101; 108; 108; 111]%N.
Proof. reflexivity. Qed.

(** * Further properties of the code *)

(** ** Which key events are the trigger *)

Lemma str_eqb_eq (a b : pystr) : str_eqb a b = true <-> a = b.
Proof.
  unfold str_eqb. destruct (list_eq_dec N.eq_dec a b); split; congruence.
Qed.

Lemma Key_beq_eq (a b : Key) : Key_beq a b = true <-> a = b.
Proof.
  split; [apply internal_Key_dec_bl | apply internal_Key_dec_lb].
Qed.

(** X1.  A character trigger is matched by exactly the key events that are
    a [KeyCode] whose [char] is that string, whatever their [vk] and
    [is_dead]; a [Key] member as trigger is matched by that member only.  A
    key event that is not the trigger leaves the object untouched in both
    handlers. *)
Theorem key_matching_characterised :
  (forall (s : pystr) (key : key_event),
     key_matches (trigger_str s) key = Ok true
     <-> exists vk is_dead, key = KeyCode vk (Some s) is_dead)
  /\ (forall (k : Key) (key : key_event),
        key_matches (trigger_obj (special k)) key = Ok true
        <-> key = special k)
  /\ (forall (self : App) (key : key_event) (grace : list audio_ev),
        key_matches (trigger_key self) key <> Ok true ->
        on_key_press key self = (Ok tt, self)
        /\ on_key_release grace key self = (Ok tt, self)).
Proof.
  conjs.
  - intros s key. destruct key as [k|vk [c|] d|]; simpl.
    + split; [discriminate | intros (vk & d & H); discriminate H].
    + split.
      * intro H. injection H as H. apply str_eqb_eq in H. subst c. eauto.
      * intros (vk' & d' & H). injection H as _ -> _.
        f_equal. now apply str_eqb_eq.
    + split; [discriminate | intros (vk' & d' & H); discriminate H].
    + split; [discriminate | intros (vk & d & H); discriminate H].
  - intros k key. destruct key as [k'|vk c d|]; simpl.
    + split.
      * intro H. injection H as H. apply Key_beq_eq in H. now subst.
      * intro H. injection H as ->. f_equal. now apply Key_beq_eq.
    + split; discriminate.
    + split; discriminate.
  - intros self key grace Hno.
    destruct (key_matches_total (trigger_key self) key) as [[|] Hb];
      [contradiction|].
    split; [now apply on_key_press_other_key
           | now apply on_key_release_other_key].
Qed.

Lemma key_matching_characterised_witness :
  key_matches (trigger_key app0) (KeyCode None (Some ascii_r) false) <> Ok true
  /\ on_key_press (KeyCode None (Some ascii_r) false) app0 = (Ok tt, app0)
  /\ key_matches (trigger_str ascii_r) (KeyCode (Some 82%N) (Some ascii_r) true)
     = Ok true.
Proof.
  destruct key_matching_characterised as (Hstr & _ & Hother).
  assert (Hno : key_matches (trigger_key app0)
                  (KeyCode None (Some ascii_r) false) <> Ok true)
    by discriminate.
  conjs.
  - exact Hno.
  - exact (proj1 (Hother app0 _ [] Hno)).
  - apply Hstr. eauto.
Defined.

(** ** The audio thread, for any order of its steps *)

(** Events that are all the line a callback prints. *)
Lemma audio_prints_quiet (d : list event) :
  Forall (eq (print Audio_status)) d ->
  statuses d = [] /\ threads_started d = [] /\ engine_calls d = []
  /\ injections d = [] /\ stream_calls d = [] /\ pauses d = 0%Z.
Proof.
  induction 1 as [|e d <- _ IH]; [conjs; reflexivity|].
  destruct IH as (H1 & H2 & H3 & H4 & H5 & H6). simpl. conjs; assumption.
Qed.

Section AudioFrame.

Variables (t : trigger) (sr : Z) (st : bool) (m : ndarray -> res pystr)
          (k : nat -> N -> option Exn) (dev : sounddevice).

(** One step of the audio thread: it cannot raise, it writes the buffer,
    its own frame and the log, and with the flag cleared it can only
    append the block in flight. *)
Lemma audio_step_frame (ev : audio_ev) (r : bool) (buf : list ndarray)
    (ic : option block) (lg : list event) :
  exists (new : list ndarray) (ic' : option block) (d : list event),
    audio_step ev (mk_app t sr r buf st m k dev ic lg)
    = (Ok tt, mk_app t sr r (buf ++ new) st m k dev ic' (lg ++ d))
    /\ Forall (eq (print Audio_status)) d
    /\ (length new <= length (filter is_cb_append [ev]))%nat
    /\ (r = false ->
        (new = [] /\ ic' = None)
        \/ (exists b, ic = Some b /\ new = [flatten b] /\ ic' = None)).
Proof.
  destruct ev as [indata status|].
  - exists [], (if r then Some indata else None),
      (if status then [print Audio_status] else []).
    rewrite app_nil_r.
    destruct status, r; cbn; unfold emit, modify; cbn;
      rewrite ?app_nil_r; conjs; try reflexivity;
      try (simpl; lia); try discriminate; auto.
  - destruct ic as [b|].
    + exists [flatten b], None, []. rewrite app_nil_r. cbn.
      conjs; try reflexivity; try (simpl; lia); eauto 7.
    + exists [], None, []. rewrite !app_nil_r. cbn.
      conjs; try reflexivity; try (simpl; lia); auto.
Qed.

Lemma audio_thread_frame (evs : list audio_ev) (r : bool) :
  forall (buf : list ndarray) (ic : option block) (lg : list event),
  exists (new : list ndarray) (ic' : option block) (d : list event),
    audio_thread evs (mk_app t sr r buf st m k dev ic lg)
    = (Ok tt, mk_app t sr r (buf ++ new) st m k dev ic' (lg ++ d))
    /\ Forall (eq (print Audio_status)) d
    /\ (length new <= length (filter is_cb_append evs))%nat
    /\ (r = false ->
        (new = [] /\ (ic' = None \/ ic' = ic))
        \/ (exists b, ic = Some b /\ new = [flatten b] /\ ic' = None)).
Proof.
  induction evs as [|ev evs IH]; intros buf ic lg.
  - exists [], ic, []. simpl. unfold ret. rewrite !app_nil_r.
    conjs; try reflexivity; auto.
  - destruct (audio_step_frame ev r buf ic lg)
      as (new1 & ic1 & d1 & Hstep & Hd1 & Hn1 & Hr1).
    destruct (IH (buf ++ new1) ic1 (lg ++ d1))
      as (new2 & ic2 & d2 & Hrest & Hd2 & Hn2 & Hr2).
    exists (new1 ++ new2), ic2, (d1 ++ d2).
    simpl audio_thread. unfold bind. rewrite Hstep, Hrest.
    rewrite !app_assoc. conjs.
    + reflexivity.
    + apply Forall_app. now split.
    + rewrite length_app. simpl filter in *.
      destruct (is_cb_append ev); simpl in *; lia.
    + intro Hfalse.
      destruct (Hr1 Hfalse) as [[-> ->]|(b & -> & -> & ->)];
        destruct (Hr2 Hfalse) as [[-> Hic]|(b' & Hb & _)];
        try discriminate Hb.
      * left. split; [reflexivity|]. destruct Hic; auto.
      * right. exists b. destruct Hic as [->| ->]; auto.
Qed.

End AudioFrame.



(** ** Key events in a row *)

Section Handlers.

Variables (t : trigger) (sr : Z) (st : bool) (m : ndarray -> res pystr)
          (k : nat -> N -> option Exn) (dev : sounddevice).

Lemma hand_over_any (buf : list ndarray) (ic : option block)
    (lg : list event) :
  hand_over (mk_app t sr false buf st m k dev ic lg)
  = (Ok tt,
     mk_app t sr false buf st m k dev ic (lg ++ hand_over_events buf)).
Proof. unfold hand_over. destruct buf; steps; reflexivity. Qed.

End Handlers.

Lemma is_trigger_true (self : App) (key : key_event) :
  is_trigger self key = true <-> key_matches (trigger_key self) key = Ok true.
Proof.
  unfold is_trigger.
  destruct (key_matches_total (trigger_key self) key) as [b ->].
  split; congruence.
Qed.

Lemma is_trigger_false (self : App) (key : key_event) :
  is_trigger self key = false <-> key_matches (trigger_key self) key = Ok false.
Proof.
  unfold is_trigger.
  destruct (key_matches_total (trigger_key self) key) as [b ->].
  split; congruence.
Qed.

(** X4.  A key release never raises; it starts at most one transcription
    thread; and a second release of the same key, whatever happens on the
    audio thread meanwhile, does nothing: only the first release after a
    press hands the buffer over. *)
Theorem release_is_idempotent (g1 g2 : list audio_ev) (key : key_event)
    (self : App) :
  let once := exec (on_key_release g1 key) self in
  fst (on_key_release g1 key self) = Ok tt
  /\ (threads_started (added self once) = []
      \/ threads_started (added self once) = [transcription_thread])
  /\ on_key_release g2 key once = (Ok tt, once).
Proof.
  intros once. unfold once, exec.
  destruct (is_trigger self key) eqn:Hk.
  - apply is_trigger_true in Hk. destruct (is_recording self) eqn:Hr.
    + destruct self as [t sr r buf st m k dev ic lg].
      simpl in Hk, Hr. subst r.
      rewrite (on_key_release_recording t sr st m k dev key Hk).
      unfold bind.
      destruct (audio_thread_frame t sr st m k dev g1 false buf ic
                                   (lg ++ stop_events))
        as (new & ic' & d & Hrun & Hd & _).
      destruct (audio_prints_quiet d Hd) as (_ & Ht & _).
      rewrite Hrun, hand_over_any. cbn [fst snd]. conjs.
      * reflexivity.
      * unfold added. cbn [log]. rewrite <- !app_assoc, skipn_length_app.
        rewrite !threads_started_app, Ht.
        destruct (buf ++ new); auto.
      * now apply on_key_release_idle.
    + rewrite (on_key_release_idle g1 key self Hr). cbn [fst snd]. conjs.
      * reflexivity.
      * left. unfold added. now rewrite skipn_all.
      * now apply on_key_release_idle.
  - apply is_trigger_false in Hk.
    rewrite (on_key_release_other_key g1 key self Hk). cbn [fst snd]. conjs.
    + reflexivity.
    + left. unfold added. now rewrite skipn_all.
    + now apply on_key_release_other_key.
Qed.

(** ** What validation lets through *)

Section Accepted.

Local Open Scope Qc_scope.

Lemma peak_zero_all_zero (a : ndarray) : peak a = 0 -> all_zero a.
Proof.
  intro Hp. pose proof (peak_ub a) as H. rewrite Hp in H.
  unfold all_zero. eapply Forall_impl; [|exact H].
  intros x Hx. apply Qcabs_null. apply Qcle_antisym; [exact Hx|].
  apply Qcabs_nonneg.
Qed.

Lemma peak_pos_or_all_zero (a : ndarray) : 0 < peak a \/ all_zero a.
Proof.
  destruct (Qcle_lt_or_eq _ _ (peak_nonneg a)) as [H|H]; [now left|].
  right. now apply peak_zero_all_zero.
Qed.

(** At any sample rate, what [validate] accepts has a positive peak and is
    the input divided by it, as float32. *)
Lemma validate_accept_inv (sample_rate : Z) (a audio : ndarray) :
  validate sample_rate a = Ok (accept audio) ->
  data a <> [] /\ 0 < peak a
  /\ audio = {| dt := float32;
                data := map (fun x => x / peak a) (data a) |}.
Proof.
  intro Hv.
  assert (Hne : data a <> []).
  { intro E. unfold validate, np_abs in Hv. rewrite E in Hv.
    discriminate Hv. }
  unfold validate in Hv. rewrite (np_max_abs a Hne) in Hv. simpl of_max in Hv.
  destruct (ltb _ _) in Hv; [discriminate Hv|].
  destruct (sqrt_ltb _ _ && ltb _ _) eqn:Hs in Hv; [discriminate Hv|].
  destruct (peak_pos_or_all_zero a) as [Hp|Hz].
  - conjs; [exact Hne | exact Hp |].
    rewrite (normalize_pos a Hne Hp), to_float32_eq in Hv.
    now injection Hv as <-.
  - rewrite (all_zero_silence_test a Hne Hz) in Hs. discriminate Hs.
Qed.

End Accepted.

(** X5.  Whatever [validate] accepts, at any sample rate, is normalised to
    full scale: it is float32, has as many samples as the recording, its
    peak is exactly 1 and every sample lies in [-1, 1]; each sample is the
    recorded one divided by the recording's peak, which is positive. *)
Theorem accepted_audio_is_full_scale (sample_rate : Z) (a audio : ndarray) :
  validate sample_rate a = Ok (accept audio) ->
  dt audio = float32
  /\ length (data audio) = length (data a)
  /\ peak audio = 1%Qc
  /\ Forall (fun x => (- (1) <= x <= 1)%Qc) (data audio)
  /\ (0 < peak a)%Qc
  /\ data audio = map (fun x => (x / peak a)%Qc) (data a).
Proof.
  intro Hv. destruct (validate_accept_inv sample_rate a audio Hv)
    as (Hne & Hp & ->).
  assert (H1 : peak {| dt := float32;
                       data := map (fun x => (x / peak a)%Qc) (data a) |}
               = 1%Qc) by exact (peak_normalized a Hp).
  conjs; try reflexivity.
  - simpl. apply length_map.
  - exact H1.
  - pose proof (peak_ub {| dt := float32;
                           data := map (fun x => (x / peak a)%Qc) (data a) |})
      as Hub.
    rewrite H1 in Hub. eapply Forall_impl; [|exact Hub].
    intros x Hx. now apply Qcabs_Qcle_condition.
  - exact Hp.
Qed.

Lemma accepted_audio_is_full_scale_witness :
  exists audio : ndarray,
    validate 16000 loud_half_second = Ok (accept audio)
    /\ dt audio = float32 /\ peak audio = 1%Qc.
Proof.
  assert (Hne : data loud_half_second <> []) by discriminate.
  destruct (validate_cases loud_half_second Hne)
    as [[_ E]|[(_ & _ & E)|(_ & _ & E)]];
    [vm_compute in E; discriminate E | vm_compute in E; discriminate E |].
  eexists. split; [exact E|].
  destruct (accepted_audio_is_full_scale 16000 loud_half_second _ E)
    as (Hd & _ & Hp & _).
  split; [exact Hd | exact Hp].
Defined.

(** ** Blocks and the minimum duration *)

Lemma duration_lt_3200 (a : ndarray) :
  (duration 16000 a < Q2Qc (2 # 10))%Qc <-> (length (data a) < 3200)%nat.
Proof.
  split; [|apply short_duration].
  intro H. apply duration_test, ltb_lt, Qclt_Rlt in H.
  unfold min_duration in H. rewrite Q2R_this_mult, !Q2R_Z2Qc in H.
  rewrite (Qeq_eqR _ _ (this_Q2Qc _)) in H.
  replace (Q2R (2 # 10)) with (/ 5)%R in H by (unfold Q2R; simpl; lra).
  assert (H' : (IZR (Z.of_nat (length (data a))) < IZR 3200)%R) by lra.
  apply lt_IZR in H'. lia.
Qed.

Lemma length_concat_blocks (n : nat) (chunks : list ndarray) :
  Forall (fun c => length (data c) = n) chunks ->
  length (concat (map data chunks)) = (n * length chunks)%nat.
Proof.
  induction 1 as [|c chunks Hc _ IH]; simpl; [lia|].
  rewrite length_app, IH, Hc. lia.
Qed.

(** X8.  The stream delivers blocks of [sample_rate / 10] = 1600 samples,
    and below 3200 samples a recording is too short: a buffer of [n] such
    blocks concatenates to [1600 n] samples, and it is rejected as too
    short exactly when it holds a single block. *)
Theorem one_block_is_too_short (chunks : list ndarray) :
  chunks <> [] ->
  Forall (fun c => length (data c) = Z.to_nat (16000 / 10)) chunks ->
  exists a : ndarray,
    np_concatenate chunks = Ok a
    /\ length (data a) = (1600 * length chunks)%nat
    /\ (validate 16000 a = Ok too_short <-> length chunks = 1%nat).
Proof.
  intros Hne Hall.
  destruct (np_concatenate_data chunks Hne) as (a & Hcat & Hdata).
  assert (Hlen : length (data a) = (1600 * length chunks)%nat).
  { rewrite Hdata. now apply length_concat_blocks. }
  assert (Hn : (1 <= length chunks)%nat).
  { destruct chunks; [congruence | simpl; lia]. }
  assert (Hane : data a <> []).
  { intro E. rewrite E in Hlen. simpl in Hlen. lia. }
  exists a. conjs; [exact Hcat | exact Hlen |].
  pose proof (duration_lt_3200 a) as Hd. rewrite Hlen in Hd.
  destruct (validate_cases a Hane) as [[Hs Hv]|[(Hl & _ & Hv)|(Hl & _ & Hv)]];
    rewrite Hv; split; intro H; try discriminate H; try reflexivity.
  - apply Hd in Hs. lia.
  - exfalso. apply Hl, Hd. lia.
  - exfalso. apply Hl, Hd. lia.
Qed.

Lemma one_block_is_too_short_witness :
  [silent_block] <> []
  /\ Forall (fun c => length (data c) = Z.to_nat (16000 / 10)) [silent_block]
  /\ exists a : ndarray,
       np_concatenate [silent_block] = Ok a
       /\ validate 16000 a = Ok too_short.
Proof.
  assert (Hne : [silent_block] <> []) by discriminate.
  assert (Hall : Forall (fun c => length (data c) = Z.to_nat (16000 / 10))
                        [silent_block]).
  { constructor; [|constructor]. vm_compute. reflexivity. }
  conjs; [exact Hne | exact Hall |].
  destruct (one_block_is_too_short [silent_block] Hne Hall)
    as (a & Hcat & _ & Hv).
  exists a. split; [exact Hcat | exact (proj2 Hv eq_refl)].
Defined.

(** ** Typing *)

Lemma pauses_app (l1 l2 : list event) :
  pauses (l1 ++ l2) = (pauses l1 + pauses l2)%Z.
Proof.
  induction l1 as [|e l1 IH]; [reflexivity|].
  destruct e; simpl; rewrite IH; lia.
Qed.

Lemma sent_prefix (kbd : nat -> N -> option Exn) (text : pystr) :
  forall i, exists rest, text = sent kbd i text ++ rest.
Proof.
  induction text as [|ch text IH]; intro i; [now exists []|].
  simpl. destruct (kbd i ch).
  - now exists text.
  - destruct (IH (S i)) as [rest Hrest]. exists rest. now rewrite <- Hrest.
Qed.

Lemma sent_all (kbd : nat -> N -> option Exn) (text : pystr) :
  (forall j ch, kbd j ch = None) -> forall i, sent kbd i text = text.
Proof.
  intro Hnone. induction text as [|ch text IH]; intro i; [reflexivity|].
  simpl. now rewrite Hnone, IH.
Qed.

(** The keystrokes of [type_chars] are the characters of [sent], and a
    run without failure pauses 10 ms for each. *)
Lemma type_chars_sent (text : pystr) : forall (i : nat) (self : App),
  exists (r : res unit) (d : list event),
    type_chars i text self = (r, set_log (log self ++ d) self)
    /\ injections d = map kbd_type (sent (keyboard_controller self) i text)
    /\ (r = Ok tt -> pauses d = (10 * Z.of_nat (length text))%Z).
Proof.
  induction text as [|ch rest IH]; intros i self.
  - exists (Ok tt), []. simpl. unfold ret. rewrite app_nil_r.
    conjs; try reflexivity. now destruct self.
  - simpl type_chars. unfold bind at 1. cbn -[type_chars].
    simpl sent.
    destruct (keyboard_controller self i ch) as [e|] eqn:K; cbn -[type_chars].
    + exists (Raise e), [kbd_type ch]. conjs; try reflexivity. discriminate.
    + destruct (IH (S i) (set_log ((log self ++ [kbd_type ch]) ++ [sleep 10])
                                 (set_log (log self ++ [kbd_type ch]) self)))
        as (r & d & Hrun & Hi & Hp).
      rewrite Hrun. exists r, (kbd_type ch :: sleep 10 :: d).
      simpl log. rewrite !set_log_twice, <- !app_assoc. cbn [app].
      conjs; try reflexivity.
      * simpl in Hi. unfold injections in *. simpl. now rewrite Hi.
      * intro Hok.
        change (pauses (kbd_type ch :: sleep 10 :: d)) with (10 + pauses d)%Z.
        rewrite (Hp Hok).
        change (length (ch :: rest)) with (S (length rest)). lia.
Qed.

(** X9.  [_type_text] never raises and writes nothing but the log.  The
    characters it sends to the keyboard are a prefix of the text, in
    order: the text up to and including the first keystroke that fails,
    or all of it; and when no keystroke fails, it has paused for 100 ms and
    then 10 ms after each character. *)
Theorem typing_sends_a_prefix (text : pystr) (self : App) :
  let after := exec (_type_text text) self in
  let kbd := keyboard_controller self in
  fst (_type_text text self) = Ok tt
  /\ after = set_log (log after) self
  /\ injections (added self after) = map kbd_type (sent kbd 0 text)
  /\ (exists rest, text = sent kbd 0 text ++ rest)
  /\ ((forall j ch, kbd j ch = None) ->
      sent kbd 0 text = text
      /\ pauses (added self after)
         = (100 + 10 * Z.of_nat (length text))%Z).
Proof.
  intros after kbd.
  destruct (type_chars_sent text 0 (set_log (log self ++ [sleep 100]) self))
    as (r & d & Hrun & Hi & Hp).
  destruct (type_chars_effect text 0 (set_log (log self ++ [sleep 100]) self))
    as (r' & d' & Hrun' & _ & _ & _ & _ & Hnone).
  assert (Hrd : r' = r) by congruence. subst r'. clear Hrun' d'.
  assert (Hall : exists tail,
            _type_text text self
            = (Ok tt, set_log (log self ++ sleep 100 :: d ++ tail) self)
            /\ injections tail = []
            /\ pauses tail = 0%Z).
  { unfold _type_text, try_except. unfold bind at 1. cbn -[type_chars].
    unfold bind at 1. rewrite Hrun. simpl log. rewrite set_log_twice.
    destruct r as [[]|e];
      [exists [print Text_typed] | exists [print (Error_typing_text e)]];
      cbn; unfold emit, modify; cbn; rewrite <- !app_assoc; simpl;
      conjs; reflexivity. }
  destruct Hall as (tail & Hall & Hit & Hpt).
  unfold after, exec. rewrite Hall. cbn [fst snd].
  rewrite added_set_log. conjs.
  - reflexivity.
  - reflexivity.
  - change (sleep 100 :: d ++ tail) with ([sleep 100] ++ d ++ tail).
    rewrite !injections_app, Hi, Hit. simpl. apply app_nil_r.
  - apply sent_prefix.
  - intro Hok. split; [now apply sent_all|].
    change (sleep 100 :: d ++ tail) with ([sleep 100] ++ d ++ tail).
    rewrite !pauses_app, Hpt, (Hp (Hnone Hok)).
    change (pauses [sleep 100]) with 100%Z. lia.
Qed.

Lemma typing_sends_a_prefix_witness :
  (forall j ch, keyboard_controller app0 j ch = None)
  /\ sent (keyboard_controller app0) 0 hello = hello
  /\ pauses (added app0 (exec (_type_text hello) app0)) = 170%Z
  /\ injections (added app_stuck (exec (_type_text hello) app_stuck))
     = map kbd_type [32; 104; 101]%N.
Proof.
  assert (Hok : forall j ch, keyboard_controller app0 j ch = None)
    by reflexivity.
  destruct (typing_sends_a_prefix hello app0) as (_ & _ & _ & _ & H).
  destruct (H Hok) as [Hs Hp].
  conjs; [exact Hok | exact Hs | exact Hp |].
  exact (proj1 (proj2 (proj2 (typing_sends_a_prefix hello app_stuck)))).
Defined.

(** ** The transcription thread as a whole *)

(** Every run of [_transcribe_and_type] returns normally, writes only the
    log, and ends by setting Ready; before that it calls the engine at most
    once, shows at most one other label, and types only after an engine
    call. *)
Lemma _transcribe_and_type_effect (self : App) :
  exists d : list event,
    _transcribe_and_type self
    = (Ok tt, set_log (log self ++ d ++ [update_status Ready gray]) self)
    /\ (length (engine_calls d) <= 1)%nat
    /\ (length (statuses d) <= 1)%nat
    /\ (engine_calls d = [] -> injections d = []).
Proof.
  destruct (audio_buffer self) as [|c rest] eqn:Hbuf.
  - exists [print No_audio_buffer].
    unfold _transcribe_and_type, try_except.
    cbn -[transcribe_samples]. rewrite Hbuf. steps.
    conjs; try reflexivity; simpl; lia.
  - destruct (np_concatenate_data (audio_buffer self)) as (a & Hcat & _);
      [congruence|].
    rewrite (_transcribe_and_type_samples self a Hcat).
    destruct (validate (sample_rate self) a) as [[| |audio]|e] eqn:Hv.
    + rewrite (try_except_ok _ _ _ _ _ (outcome_too_short self a Hv)).
      exists (preamble a ++ [print Rms_and_max; print Audio_too_short;
                             update_status Too_short orange; sleep 1000]).
      rewrite <- !app_assoc. conjs; try reflexivity; simpl; lia.
    + rewrite (try_except_ok _ _ _ _ _ (outcome_silent self a Hv)).
      exists (preamble a ++ [print Rms_and_max; print Audio_silence;
                             update_status Silence orange; sleep 1000]).
      rewrite <- !app_assoc. conjs; try reflexivity; simpl; lia.
    + destruct (model self audio) as [result|e] eqn:Hm.
      * destruct (strip result) as [|ch text] eqn:Hs.
        -- rewrite (try_except_ok _ _ _ _ _
                      (outcome_no_text self a audio Hv result Hm Hs)).
           exists (dispatch a audio
                   ++ [print No_text_transcribed;
                       update_status No_text orange; sleep 1000]).
           rewrite <- !app_assoc.
           conjs; try reflexivity; simpl; lia.
        -- destruct (outcome_text self a audio Hv result Hm)
             as (d & Hrun & Hst & Hen & _); [congruence|].
           rewrite (try_except_ok _ _ _ _ _ Hrun).
           exists (dispatch a audio
                   ++ [print (Transcribed (strip result))] ++ d).
           rewrite <- !app_assoc. conjs; try reflexivity.
           ++ rewrite !engine_calls_app, Hen. simpl. lia.
           ++ rewrite !statuses_app, Hst. simpl. lia.
           ++ rewrite !engine_calls_app. discriminate.
      * rewrite (try_except_raise _ _ _ _ _
                   (outcome_engine_error self a audio Hv e Hm)).
        rewrite transcription_failed_run. simpl log.
        exists (dispatch a audio
                ++ [print (Error_during_transcription e); print Traceback;
                    update_status Error red; sleep 1000]).
        rewrite <- !app_assoc.
        conjs; try reflexivity; simpl; lia.
    + rewrite (try_except_raise _ _ _ _ _ (outcome_invalid self a e Hv)).
      rewrite transcription_failed_run. simpl log.
      exists (preamble a
              ++ [print (Error_during_transcription e); print Traceback;
                  update_status Error red; sleep 1000]).
      rewrite <- !app_assoc. conjs; try reflexivity; simpl; lia.
Qed.

(** X10.  Whatever the buffer holds and whatever the engine and the
    keyboard do, [_transcribe_and_type] returns normally and leaves the
    overlay at Ready.  It changes nothing of the object but the log: the
    flag, the stream and the buffer are as before (the buffer is not
    emptied).  It calls the engine at most once, sets at most one label
    before Ready, and sends keystrokes only if it called the engine. *)
Theorem transcription_thread_only_logs (self : App) :
  let after := exec _transcribe_and_type self in
  fst (_transcribe_and_type self) = Ok tt
  /\ after = set_log (log after) self
  /\ audio_buffer after = audio_buffer self
  /\ state after = READY
  /\ (length (engine_calls (added self after)) <= 1)%nat
  /\ (length (statuses (added self after)) <= 2)%nat
  /\ (engine_calls (added self after) = [] ->
      injections (added self after) = []).
Proof.
  intros after. destruct (_transcribe_and_type_effect self)
    as (d & Hrun & He & Hs & Hi).
  unfold after, exec. rewrite Hrun. cbn [fst snd]. rewrite added_set_log.
  conjs; try reflexivity.
  - unfold state. simpl log. rewrite !shown_app. reflexivity.
  - rewrite engine_calls_app. simpl. rewrite app_nil_r. exact He.
  - rewrite statuses_app, length_app. simpl. lia.
  - rewrite engine_calls_app, injections_app. simpl. rewrite !app_nil_r.
    exact Hi.
Qed.

Lemma transcription_thread_only_logs_witness :
  engine_calls (added app0 (exec _transcribe_and_type app0)) = []
  /\ injections (added app0 (exec _transcribe_and_type app0)) = []
  /\ state (exec _transcribe_and_type app_stuck) = READY.
Proof.
  assert (He : engine_calls (added app0 (exec _transcribe_and_type app0)) = [])
    by reflexivity.
  destruct (transcription_thread_only_logs app0) as (_ & _ & _ & _ & _ & _ & Hi).
  destruct (transcription_thread_only_logs app_stuck) as (_ & _ & _ & Hs & _).
  conjs; [exact He | exact (Hi He) | exact Hs].
Defined.

(** ** The recording thread *)





Section Recorder.

Variables (t : trigger) (sr : Z) (m : ndarray -> res pystr)
          (k : nat -> N -> option Exn) (dev : sounddevice).

Lemma step_open_ok (r st : bool) (buf : list ndarray) (ic : option block)
    (lg : list event) :
  InputStream dev = None -> sd_start dev = None ->
  _record_audio_step at_open (mk_app t sr r buf st m k dev ic lg)
  = (Ok at_loop,
     mk_app t sr r buf true m k dev ic
            (lg ++ [stream_open sr (sr / 10); stream_start; sleep 100])).
Proof.
  intros H1 H2. unfold _record_audio_step, try_except. cbn.
  rewrite H1. cbn. rewrite H2. steps. reflexivity.
Qed.


Lemma step_close_ok (buf : list ndarray) (ic : option block)
    (lg : list event) :
  sd_stop dev = None -> sd_close dev = None ->
  _record_audio_step at_loop (mk_app t sr false buf true m k dev ic lg)
  = (Ok finished,
     mk_app t sr false buf false m k dev ic
            (lg ++ [stream_stop; stream_close])).
Proof.
  intros H1 H2. unfold _record_audio_step, try_except. cbn.
  rewrite H1. cbn. rewrite H2. steps. reflexivity.
Qed.

End Recorder.



(** X12.  When a stream operation raises in a step of the recording
    thread (opening or starting the stream, stopping or closing it), the
    thread ends there: it prints the error, clears the flag and sets the
    overlay to Error, with no pause and no other label; the buffer is
    kept.  A failure while stopping leaves the stream unclosed and
    [self.stream] set.  A step in which nothing raises sets no label and
    leaves the flag alone. *)
Theorem recording_failure_clears_flag (pc : rec_pc) (self : App) :
  let after := exec (_record_audio_step pc) self in
  match step_failure pc self with
  | Some e =>
      fst (_record_audio_step pc self) = Ok finished
      /\ is_recording after = false
      /\ state after = ERROR
      /\ statuses (added self after) = [Error]
      /\ In (print (Error_during_recording e)) (added self after)
      /\ pauses (added self after) = 0%Z
      /\ audio_buffer after = audio_buffer self
      /\ (pc = at_loop ->
          stream after = true
          /\ (sd_stop (sd self) <> None ->
              stream_calls (added self after) = [stream_stop]))
  | None =>
      statuses (added self after) = []
      /\ is_recording after = is_recording self
      /\ audio_buffer after = audio_buffer self
  end.
Proof.
  destruct self as [t sr r buf st m k [o1 o2 o3 o4] ic lg].
  intros after. unfold after, exec, added, state, step_failure.
  destruct pc, r, st, o1, o2, o3, o4;
    cbn -[Z.div]; unfold emit, modify; cbn -[Z.div];
    rewrite <- ?app_assoc, ?skipn_length_app, ?shown_app;
    cbn -[Z.div];
    conjs; try reflexivity; try (intro; discriminate);
    try (intros _; split; [reflexivity | intro H; try reflexivity;
                           now contradiction H]);
    try (unfold added; cbn; now rewrite skipn_all);
    auto 10.
Qed.

(** ** The exit key *)

Lemma key_eq_esc (key : key_event) :
  key_eq key (special esc) = true <-> key = special esc.
Proof.
  destruct key as [k|vk c d|]; simpl; try (split; discriminate).
  rewrite Key_beq_eq. split; congruence.
Qed.

Lemma skipn_common_prefix {A} (l x y : list A) :
  skipn (length (l ++ x)) (l ++ y) = skipn (length x) y.
Proof. induction l as [|a l IH]; [reflexivity | exact IH]. Qed.

(** X13.  A key-down event other than Esc is handled as by
    [on_key_press] and the listener goes on.  Esc always stops the
    listener and never raises, even when stopping the stream or quitting
    the overlay raises: it clears the flag, stops and closes an open
    stream, leaves [self.stream] set and starts no transcription.
    Afterwards every key release is a no-op, so what was recorded when Esc
    came is never transcribed. *)
Theorem escape_stops_the_session (root : overlay) (key : key_event)
    (self : App) :
  let pressed := exec (on_key_press key) self in
  let after := exec (on_press root key) self in
  (key <> special esc ->
   fst (on_press root key self) = Ok (true, []) /\ after = pressed)
  /\ (key = special esc ->
      (exists calls,
         fst (on_press root key self) = Ok (false, calls)
         /\ In called_quit calls)
      /\ is_recording after = false
      /\ stream after = stream self
      /\ audio_buffer after = audio_buffer pressed
      /\ ~ In transcription_thread (threads_started (added self after))
      /\ statuses (added pressed after) = []
      /\ stream_calls (added pressed after)
         = (if stream self
            then stream_stop
                 :: match sd_stop (sd self) with
                    | None => [stream_close]
                    | Some _ => []
                    end
            else [])
      /\ forall (grace : list audio_ev) (released : key_event),
           on_release grace released after = (Ok tt, after)).
Proof.
  intros pressed after. split.
  - intro Hne. assert (Hk : key_eq key (special esc) = false).
    { destruct (key_eq key (special esc)) eqn:E; [|reflexivity].
      apply key_eq_esc in E. contradiction. }
    unfold after, pressed, exec, on_press, bind.
    destruct (key_matches_total (trigger_key self) key) as [b Hb].
    destruct (on_key_press key self) as [[[]|e] s] eqn:Hp.
    + rewrite Hk. split; reflexivity.
    + exfalso. unfold on_key_press in Hp. cbn in Hp. rewrite Hb in Hp.
      cbn in Hp. destruct b, (is_recording self); discriminate Hp.
  - intros ->.
    assert (Hmain :
      (exists calls,
         fst (on_press root (special esc) self) = Ok (false, calls)
         /\ In called_quit calls)
      /\ is_recording after = false
      /\ stream after = stream self
      /\ audio_buffer after = audio_buffer pressed
      /\ ~ In transcription_thread (threads_started (added self after))
      /\ statuses (added pressed after) = []
      /\ stream_calls (added pressed after)
         = (if stream self
            then stream_stop
                 :: match sd_stop (sd self) with
                    | None => [stream_close]
                    | Some _ => []
                    end
            else [])).
    { unfold after, pressed, exec.
      destruct self as [t sr r buf st m k [o1 o2 o3 o4] ic lg].
      destruct (key_matches_total t (special esc)) as [b Hb].
      unfold on_press, on_key_press, bind.
      cbn -[Z.div]. rewrite Hb. cbn.
      destruct b, r, st, o3, o4;
        cbn; unfold emit, modify; cbn;
        (conjs;
         [ eexists; split; [reflexivity | simpl; auto]
         | reflexivity
         | reflexivity
         | reflexivity
         | unfold added; cbn;
           rewrite <- ?app_assoc, ?skipn_common_prefix, ?skipn_length_app,
             ?skipn_all; simpl; intuition discriminate
         | unfold added; cbn;
           rewrite <- ?app_assoc, ?skipn_common_prefix, ?skipn_length_app,
             ?skipn_all; reflexivity
         | unfold added; cbn;
           rewrite <- ?app_assoc, ?skipn_common_prefix, ?skipn_length_app,
             ?skipn_all; reflexivity ]). }
    destruct Hmain as (H1 & H2 & H3 & H4 & H5 & H6 & H7).
    conjs; try assumption.
    intros grace released. unfold on_release.
    now apply on_key_release_idle.
Qed.

Lemma escape_stops_the_session_witness :
  special esc = special esc
  /\ is_recording
       (exec (on_press (mk_overlay None None) (special esc))
             (set_stream true (started app0))) = false
  /\ special ctrl_r <> special esc
  /\ exec (on_press (mk_overlay None None) (special ctrl_r)) app0
     = exec (on_key_press (special ctrl_r)) app0.
Proof.
  assert (Hne : special ctrl_r <> special esc) by discriminate.
  conjs.
  - reflexivity.
  - exact (proj1 (proj2 (proj2 (escape_stops_the_session
                                  (mk_overlay None None) (special esc)
                                  (set_stream true (started app0)))
                                eq_refl))).
  - exact Hne.
  - exact (proj2 (proj1 (escape_stops_the_session
                           (mk_overlay None None) (special ctrl_r) app0)
                        Hne)).
Defined.

(** ** A whole dictation *)

Lemma status_prints_only_prints (cbs : list (block * bool)) :
  Forall (eq (print Audio_status)) (status_prints cbs).
Proof.
  induction cbs as [|[b [|]] cbs IH]; simpl; auto.
Qed.

(** X14.  A whole dictation, from the trigger press to the last keystroke:
    when the recorded samples are accepted, the engine answers with a text
    that is not blank and the keyboard works, the engine is called once,
    with the normalised concatenation of the recorded blocks, the
    keystrokes sent are exactly the characters of the trimmed text, in
    order, and the overlay goes RECORDING, Processing, Ready. *)
Theorem dictation_types_the_transcript (key : key_event) (self : App)
    (cbs : list (block * bool)) (last : option (block * bool))
    (late : list (block * bool)) (a audio : ndarray) (result : pystr) :
  key_matches (trigger_key self) key = Ok true ->
  is_recording self = false ->
  in_callback self = None ->
  let stopped := stopped_state key cbs last late self in
  np_concatenate (audio_buffer stopped) = Ok a ->
  validate (sample_rate self) a = Ok (accept audio) ->
  model self audio = Ok result ->
  strip result <> [] ->
  (forall j ch, keyboard_controller self j ch = None) ->
  let final := exec _transcribe_and_type stopped in
  data a = concat (map (fun b => concat (rows b)) (kept cbs last))
  /\ engine_calls (added self final) = [transcribe audio]
  /\ injections (added self final) = map kbd_type (strip result)
  /\ statuses (added self final) = [RECORDING; Processing; Ready].
Proof.
  intros Hm Hr Hc. destruct self as [t sr r buf st m k dev ic lg].
  simpl in Hm, Hr, Hc. subst r ic. intros stopped.
  unfold stopped. rewrite (stopped_state_fields t sr st m k dev key Hm).
  rewrite (recording_state_fields t sr st m k dev key Hm).
  cbn [audio_buffer log sample_rate model keyboard_controller].
  intros Hcat Hv Hmod Hs Hkbd.
  assert (Hk : map flatten (kept cbs last) <> []).
  { intro E. rewrite E in Hcat. discriminate Hcat. }
  destruct (np_concatenate_data _ Hk) as (a' & Hcat' & Hdata).
  assert (a' = a) by congruence. subst a'.
  match goal with
  | |- context [exec _transcribe_and_type ?s] => set (S0 := s) in *
  end.
  set (final := exec _transcribe_and_type S0).
  destruct (outcome_text S0 a audio Hv result Hmod Hs)
    as (d & Hrun & Hst & Hen & _ & Hinj).
  specialize (Hinj Hkbd).
  assert (Hfinal : final
            = set_log (log S0 ++ dispatch a audio
                       ++ [print (Transcribed (strip result))] ++ d
                       ++ [update_status Ready gray]) S0).
  { unfold final, exec.
    rewrite (_transcribe_and_type_samples S0 a Hcat).
    now rewrite (try_except_ok _ _ _ _ _ Hrun). }
  assert (Hadd : added (mk_app t sr false buf st m k dev None lg) final
            = start_events ++ status_prints cbs
              ++ status_prints match last with
                               | Some c => [c]
                               | None => []
                               end
              ++ stop_events ++ status_prints late
              ++ hand_over_events (map flatten (kept cbs last))
              ++ dispatch a audio
              ++ [print (Transcribed (strip result))] ++ d
              ++ [update_status Ready gray]).
  { rewrite Hfinal. unfold added, S0. cbn [log set_log].
    rewrite <- !app_assoc. apply skipn_length_app. }
  destruct (audio_prints_quiet _ (status_prints_only_prints cbs))
    as (Hs1 & _ & He1 & Hi1 & _).
  destruct (audio_prints_quiet _ (status_prints_only_prints
              match last with Some c => [c] | None => [] end))
    as (Hs2 & _ & He2 & Hi2 & _).
  destruct (audio_prints_quiet _ (status_prints_only_prints late))
    as (Hs3 & _ & He3 & Hi3 & _).
  assert (Hh : hand_over_events (map flatten (kept cbs last))
               = [thread_start transcription_thread]).
  { destruct (map flatten (kept cbs last)); [congruence | reflexivity]. }
  conjs.
  - rewrite Hdata, map_map. reflexivity.
  - rewrite Hadd, Hh, !engine_calls_app, He1, He2, He3, Hen. reflexivity.
  - rewrite Hadd, Hh, !injections_app, Hi1, Hi2, Hi3, Hinj. simpl.
    apply app_nil_r.
  - rewrite Hadd, Hh, !statuses_app, Hs1, Hs2, Hs3, Hst. reflexivity.
Qed.

Lemma dictation_types_the_transcript_witness :
  exists a audio : ndarray,
    np_concatenate
      (audio_buffer (stopped_state (special ctrl_r) loud_blocks None [] app0))
    = Ok a
    /\ validate (sample_rate app0) a = Ok (accept audio)
    /\ model app0 audio = Ok hello
    /\ strip hello <> []
    /\ injections
         (added app0
            (exec _transcribe_and_type
               (stopped_state (special ctrl_r) loud_blocks None [] app0)))
       = map kbd_type [104; 101; 108; 108; 111]%N.
Proof.
  destruct (np_concatenate_data
              (audio_buffer (stopped_state (special ctrl_r) loud_blocks
                                           None [] app0)))
    as (a & Hcat & Hdata); [discriminate|].
  assert (Hne : data a <> []) by (rewrite Hdata; discriminate).
  assert (Hs : strip hello <> []) by discriminate.
  destruct (validate_cases a Hne) as [[Hd _]|[(_ & [_ Hp] & _)|(_ & _ & Hv)]].
  - exfalso. apply duration_lt_3200 in Hd. rewrite Hdata in Hd.
    vm_compute in Hd. lia.
  - exfalso. apply ltb_lt in Hp. unfold peak in Hp. rewrite Hdata in Hp.
    vm_compute in Hp. discriminate Hp.
  - exists a. eexists. conjs; [exact Hcat | exact Hv | reflexivity | exact Hs |].
    exact (proj1 (proj2 (proj2
      (dictation_types_the_transcript (special ctrl_r) app0 loud_blocks
         None [] a _ hello eq_refl eq_refl eq_refl Hcat Hv eq_refl Hs
         (fun _ _ => eq_refl))))).
Defined.

(** ** Failures while processing *)

(** X15.  When the validation or the engine raises in the transcription
    thread, the thread still returns normally: it prints the error, shows
    Error for one second and then Ready, and sends no keystroke. *)
Theorem processing_failure_shows_error (self : App) (a audio : ndarray)
    (e : Exn) :
  np_concatenate (audio_buffer self) = Ok a ->
  validate (sample_rate self) a = Raise e
  \/ (validate (sample_rate self) a = Ok (accept audio)
      /\ model self audio = Raise e) ->
  let after := exec _transcribe_and_type self in
  fst (_transcribe_and_type self) = Ok tt
  /\ In (print (Error_during_transcription e)) (added self after)
  /\ statuses (added self after) = [Error; Ready]
  /\ pauses (added self after) = 1000%Z
  /\ injections (added self after) = [].
Proof.
  intros Hcat Hfail after.
  assert (Hrun : exists d,
            _transcribe_and_type self
            = (Ok tt, set_log (log self ++ d ++ failure_events e) self)
            /\ statuses d = [] /\ pauses d = 0%Z /\ injections d = []).
  { rewrite (_transcribe_and_type_samples self a Hcat).
    destruct Hfail as [Hv|[Hv Hm]].
    - exists (preamble a).
      rewrite (try_except_raise _ _ _ _ _ (outcome_invalid self a e Hv)).
      rewrite transcription_failed_run. simpl log.
      rewrite <- app_assoc. conjs; reflexivity.
    - exists (dispatch a audio).
      rewrite (try_except_raise _ _ _ _ _
                 (outcome_engine_error self a audio Hv e Hm)).
      rewrite transcription_failed_run. simpl log.
      rewrite <- app_assoc. conjs; reflexivity. }
  destruct Hrun as (d & Hrun & Hs & Hp & Hi).
  unfold after, exec. rewrite Hrun. cbn [fst snd]. rewrite added_set_log.
  conjs.
  - reflexivity.
  - apply in_or_app. right. now left.
  - now rewrite statuses_app, Hs.
  - rewrite pauses_app, Hp. reflexivity.
  - now rewrite injections_app, Hi.
Qed.

Lemma processing_failure_shows_error_witness :
  exists audio : ndarray,
    np_concatenate (audio_buffer app_mute) = Ok loud_half_second
    /\ validate (sample_rate app_mute) loud_half_second = Ok (accept audio)
    /\ model app_mute audio = Raise EngineError
    /\ statuses (added app_mute (exec _transcribe_and_type app_mute))
       = [Error; Ready].
Proof.
  assert (Hcat : np_concatenate (audio_buffer app_mute) = Ok loud_half_second)
    by reflexivity.
  assert (Hne : data loud_half_second <> []) by discriminate.
  destruct (validate_cases loud_half_second Hne)
    as [[_ E]|[(_ & _ & E)|(_ & _ & E)]];
    [vm_compute in E; discriminate E | vm_compute in E; discriminate E |].
  eexists. conjs; [exact Hcat | exact E | reflexivity |].
  exact (proj1 (proj2 (proj2
    (processing_failure_shows_error app_mute loud_half_second _ EngineError
       Hcat (or_intror (conj E eq_refl)))))).
Defined.

(** * Validation in any arithmetic *)

Lemma values_squares (d : dtype) (l : list Qc) :
  values (map (fun x => square exact_arithmetic
                          (sample exact_arithmetic d x)) l)
  = Some (map (fun x => (x * x)%Qc) l).
Proof.
  induction l as [|x l IH]; [reflexivity|].
  simpl map. simpl values. simpl in IH. rewrite IH. reflexivity.
Qed.

(** Without rounding the RMS test is the test of [sqrt_ltb] on the mean
    square. *)
Lemma rms_in_exact (a : ndarray) (t : Qc) :
  lt_float exact_arithmetic (rms_in exact_arithmetic a) t
  = sqrt_ltb (np_mean (data (np_square a))) t.
Proof.
  unfold rms_in. cbn [root mean exact_arithmetic lt_float].
  rewrite values_squares. reflexivity.
Qed.

(** In the arithmetic without rounding, [validate_in] is [validate]. *)
Lemma validate_in_exact (sample_rate : Z) (a : ndarray) :
  validate_in exact_arithmetic sample_rate a = validate sample_rate a.
Proof.
  unfold validate_in, validate. rewrite rms_in_exact.
  unfold normalize_in, normalize, np_divide_in,
    np_divide, to_float32_in, to_float32, astype.
  destruct (np_max (data (np_abs a))) as [p|]; [|reflexivity].
  cbn [of_max sample exact_arithmetic lt_float divide cast32].
  destruct (ltb _ _); [reflexivity|].
  destruct (_ && _); [reflexivity|].
  destruct (ltb 0%Qc p).
  - destruct (Qc_eq_bool p 0%Qc); [reflexivity|].
    cbn. rewrite map_id. reflexivity.
  - cbn. rewrite map_id. reflexivity.
Qed.

Lemma transcribe_samples_in_exact (a : ndarray) (self : App) :
  transcribe_samples_in exact_arithmetic a self = transcribe_samples a self.
Proof.
  unfold transcribe_samples_in, transcribe_samples.
  cbn -[_type_text validate validate_in strip].
  now rewrite validate_in_exact.
Qed.








(** * Sessions under any schedule *)

Section Schedule.

Variables (t : trigger) (sr : Z) (st : bool) (m : ndarray -> res pystr)
          (k : nat -> N -> option Exn) (dev : sounddevice).



End Schedule.


(** A trigger press between the hand-over and the read empties the buffer
    under the transcription thread, which then finds nothing to
    validate. *)
Example press_before_read :
  let stopped :=
    at_hand_over (special ctrl_r) [cb_enter block_a false; cb_append] [] app0 in
  audio_buffer stopped = [flatten block_a]
  /\ audio_buffer (exec (on_key_press (special ctrl_r)) stopped) = [].
Proof. split; reflexivity. Qed.



(** * A held key among the other threads *)

Section Held.

Variables (t : trigger) (sr : Z) (m : ndarray -> res pystr)
          (k : nat -> N -> option Exn) (dev : sounddevice).
Hypothesis open_ok : InputStream dev = None.
Hypothesis start_ok : sd_start dev = None.
Hypothesis stop_ok : sd_stop dev = None.
Hypothesis close_ok : sd_close dev = None.

(** With a working device a step of the recording thread, wherever it
    stands, writes only [self.stream] and the log, and starts no thread. *)
Lemma record_step_frame (pc : rec_pc) (r : bool) (buf : list ndarray)
    (st : bool) (ic : option block) (lg : list event) :
  exists (pc' : rec_pc) (st' : bool) (d : list event),
    _record_audio_step pc (mk_app t sr r buf st m k dev ic lg)
    = (Ok pc', mk_app t sr r buf st' m k dev ic (lg ++ d))
    /\ threads_started d = [].
Proof.
  destruct pc.
  - exists at_loop, true, [stream_open sr (sr / 10); stream_start; sleep 100].
    split; [now apply step_open_ok | reflexivity].
  - destruct r.
    + exists at_loop, st, [sleep 50]. split; reflexivity.
    + destruct st.
      * exists finished, false, [stream_stop; stream_close].
        split; [now apply step_close_ok | reflexivity].
      * exists finished, false, []. rewrite app_nil_r. split; reflexivity.
  - exists finished, st, []. rewrite app_nil_r. split; reflexivity.
Qed.

(** One step of any of the threads: the flag is set by a trigger press and
    by nothing else, and only such a press on an idle object starts a
    thread. *)
Lemma act_frame (a : action) (r : bool) (buf : list ndarray) (st : bool)
    (ic : option block) (lg : list event) :
  exists (buf' : list ndarray) (st' : bool) (ic' : option block)
         (d : list event),
    act a (mk_app t sr r buf st m k dev ic lg)
    = (Ok tt,
       mk_app t sr
              (r || is_trigger_down (mk_app t sr r buf st m k dev ic lg) a)
              buf' st' m k dev ic' (lg ++ d))
    /\ threads_started d
       = if negb r && is_trigger_down (mk_app t sr r buf st m k dev ic lg) a
         then [recording_thread] else [].
Proof.
  destruct a as [key|ev|pc].
  - simpl act. simpl is_trigger_down.
    destruct r.
    + exists buf, st, ic, []. rewrite app_nil_r.
      split; [now apply on_key_press_recording | reflexivity].
    + destruct (is_trigger (mk_app t sr false buf st m k dev ic lg) key)
        eqn:Hk.
      * apply is_trigger_true in Hk. simpl in Hk.
        exists [], st, ic, start_events.
        split; [now apply on_key_press_fields | reflexivity].
      * apply is_trigger_false in Hk.
        exists buf, st, ic, []. rewrite app_nil_r.
        split; [now apply on_key_press_other_key | reflexivity].
  - destruct (audio_step_frame t sr st m k dev ev r buf ic lg)
      as (new & ic' & d & Hstep & Hd & _).
    destruct (audio_prints_quiet d Hd) as (_ & Ht & _).
    exists (buf ++ new), st, ic', d. simpl act. simpl is_trigger_down.
    rewrite orb_false_r, andb_false_r. split; assumption.
  - destruct (record_step_frame pc r buf st ic lg)
      as (pc' & st' & d & Hstep & Ht).
    exists buf, st', ic, d. simpl act. simpl is_trigger_down.
    rewrite orb_false_r, andb_false_r. unfold bind. rewrite Hstep.
    split; [reflexivity | exact Ht].
Qed.

Lemma interleaved_frame (acts : list action) :
  forall (r : bool) (buf : list ndarray) (st : bool) (ic : option block)
         (lg : list event),
  exists (buf' : list ndarray) (st' : bool) (ic' : option block)
         (d : list event),
    interleaved acts (mk_app t sr r buf st m k dev ic lg)
    = (Ok tt,
       mk_app t sr
              (r || existsb (is_trigger_down
                               (mk_app t sr r buf st m k dev ic lg)) acts)
              buf' st' m k dev ic' (lg ++ d))
    /\ threads_started d
       = if negb r
            && existsb (is_trigger_down
                          (mk_app t sr r buf st m k dev ic lg)) acts
         then [recording_thread] else [].
Proof.
  induction acts as [|a acts IH]; intros r buf st ic lg.
  - exists buf, st, ic, []. simpl. unfold ret.
    rewrite orb_false_r, andb_false_r, app_nil_r. auto.
  - destruct (act_frame a r buf st ic lg)
      as (buf1 & st1 & ic1 & d1 & Hact & Ht1).
    set (self := mk_app t sr r buf st m k dev ic lg) in *.
    destruct (IH (r || is_trigger_down self a) buf1 st1 ic1 (lg ++ d1))
      as (buf2 & st2 & ic2 & d2 & Hrest & Ht2).
    change (is_trigger_down
              (mk_app t sr (r || is_trigger_down self a) buf1 st1 m k dev
                      ic1 (lg ++ d1)))
      with (is_trigger_down self) in Hrest, Ht2.
    exists buf2, st2, ic2, (d1 ++ d2).
    simpl interleaved. unfold bind. rewrite Hact, Hrest.
    simpl existsb. rewrite orb_assoc, app_assoc.
    split; [reflexivity|].
    rewrite threads_started_app, Ht1, Ht2.
    destruct r, (is_trigger_down self a), (existsb (is_trigger_down self) acts);
      reflexivity.
Qed.

End Held.

(** X3.  On a machine whose input device works, calls of [on_key_press]
    for key-down events with no release between them, interleaved in any
    way with steps of the audio thread and of the recording thread, start
    exactly one session if the object was idle and one of the keys is the
    trigger, and none otherwise: nothing but a trigger press sets the
    flag, and nothing clears it.  (Without a device the recording thread
    clears the flag when it fails, and the next trigger press starts
    another session.) *)
Theorem held_key_starts_one_session (acts : list action) (self : App) :
  device_works self ->
  let after := exec (interleaved acts) self in
  fst (interleaved acts self) = Ok tt
  /\ threads_started (added self after)
     = (if negb (is_recording self) && existsb (is_trigger_down self) acts
        then [recording_thread] else [])
  /\ is_recording after
     = is_recording self || existsb (is_trigger_down self) acts.
Proof.
  intros (H1 & H2 & H3 & H4) after.
  destruct self as [t sr r buf st m k dev ic lg]. simpl in H1, H2, H3, H4.
  destruct (interleaved_frame t sr m k dev H1 H2 H3 H4 acts r buf st ic lg)
    as (buf' & st' & ic' & d & Hrun & Ht).
  unfold after, exec, added. rewrite Hrun.
  cbn [fst snd log is_recording]. rewrite skipn_length_app.
  conjs; [reflexivity | exact Ht | reflexivity].
Qed.

Lemma held_key_starts_one_session_witness :
  device_works app0
  /\ threads_started
       (added app0
          (exec (interleaved
                   [key_down (special ctrl_r); record_step at_open;
                    audio (cb_enter block_a false);
                    key_down (special ctrl_r); audio cb_append;
                    record_step at_loop; key_down (special ctrl_r)])
                app0))
     = [recording_thread].
Proof.
  assert (H : device_works app0) by (unfold device_works; conjs; reflexivity).
  split; [exact H|].
  exact (proj1 (proj2 (held_key_starts_one_session
                         [key_down (special ctrl_r); record_step at_open;
                          audio (cb_enter block_a false);
                          key_down (special ctrl_r); audio cb_append;
                          record_step at_loop; key_down (special ctrl_r)]
                         app0 H))).
Defined.

(** * Floating point *)

(** The threshold of line 239 in binary64: [16000 * 0.2] is exactly
    [3200.0], as in the rationals. *)
Module Binary64.
Import PrimFloat.

Example line_239_threshold :
  eqb (16000 * 0x1.999999999999ap-3)%float 3200%float = true.
Proof. reflexivity. Qed.

End Binary64.
